(** * The [count] driver of Jellyfish (sub_commands/count_main.cc)

    A shallow embedding of the k-mer filters, the worker loop of
    [mer_counter::start], [load_bloom_filter] and [count_main], with the
    properties of the counting driver proved over it.

    The classes the driver only calls into ([mer_hash], [mer_iterator],
    [dumper_t], [merge_files], [file_header], [mer_dna_bloom_counter],
    [generator_manager]) live in headers outside this file: they appear
    here either as the calls the driver makes on them, recorded in order,
    or as small models written from the design document and marked so. *)

From Stdlib Require Import NArith.
From stdpp Require Import gmap strings list fin_maps.

Local Open Scope N_scope.

(** ** Keys *)

Module Mer.

Inductive base := A | C | G | T.

#[export] Instance base_eq_dec : EqDecision base.
Proof. solve_decision. Defined.

Definition code (b : base) : nat :=
  match b with A => 0 | C => 1 | G => 2 | T => 3 end%nat.

Definition of_code (n : nat) : option base :=
  match n with
  | 0 => Some A | 1 => Some C | 2 => Some G | 3 => Some T | _ => None
  end%nat.

#[export] Instance base_countable : Countable base.
Proof. apply (inj_countable code of_code). by intros []. Defined.

(** Modelled from the spec: [mer_dna], the k-mer key.  The design
    document gives it as a string of length k over a 4-symbol alphabet,
    packed 2 bits per symbol; the class itself (jellyfish/mer_dna.hpp)
    is missing.  A key is kept as its list of symbols, first symbol
    first, and [word] is the packed integer. *)
Definition mer_dna := list base.

Definition word (m : mer_dna) : N :=
  foldl (fun acc b => N.lor (N.shiftl acc 2) (N.of_nat (code b))) 0 m.

Definition complement (b : base) : base :=
  match b with A => T | C => G | G => C | T => A end.

Definition reverse_complement (m : mer_dna) : mer_dna :=
  reverse (complement <$> m).

(** Modelled from the spec: the lexicographic order on keys, with
    A < C < G < T. *)
Fixpoint ltb (x y : mer_dna) : bool :=
  match x, y with
  | [], [] => false
  | [], _ :: _ => true
  | _ :: _, [] => false
  | a :: x', b :: y' =>
      if decide (code a < code b)%nat then true
      else if decide (code b < code a)%nat then false
      else ltb x' y'
  end.

(** Modelled from the spec: the canonical form, "the lexicographically
    smaller of a k-mer and its reverse complement". *)
Definition canonical (m : mer_dna) : mer_dna :=
  let rc := reverse_complement m in
  if ltb rc m then rc else m.

(** Modelled from the spec: the k-mers of a sequence, one per window of
    k consecutive symbols, in sequence order (the tokenizer,
    jellyfish/mer_overlap_sequence_parser.hpp, is missing). *)
Fixpoint windows (k : nat) (s : list base) : list mer_dna :=
  match s with
  | [] => []
  | _ :: s' =>
      if decide (k ≤ length s)%nat then take k s :: windows k s' else []
  end.

(** Modelled from the spec: [mer_iterator mers(parser_, canonical)],
    "each extracted k-mer (canonicalized if canonical mode is active)":
    the keys a worker's iterator yields, from the keys its share of
    the input holds. *)
Definition mer_iterator (raw : list mer_dna) (canonical_flag : bool)
  : list mer_dna :=
  if canonical_flag then canonical <$> raw else raw.

End Mer.
Export Mer.

(** ** The Bloom counter, as the driver sees it *)

(** Modelled from the spec: a hash matrix of a Bloom filter header, as
    its rows. *)
Definition matrix := list N.

Record hash_pair := { fn1 : matrix; fn2 : matrix }.

(** Modelled from the spec: [mer_dna_bloom_counter], "an array of small
    saturating counters addressed by two independent hash functions",
    with the size and number of hashes its file declares. *)
Record mer_dna_bloom_counter := {
  bc_size : N;
  bc_nb_hashes : N;
  bc_fns : hash_pair;
  bc_data : list Byte.byte
}.

(** What jellyfish/mer_dna_bloom_counter.hpp provides and this file uses:
    the estimate [check] and the number of bytes the counter array of a
    filter of a given size occupies in a file. *)
Class BloomCounterOps := {
  check : mer_dna_bloom_counter → mer_dna → N;
  counter_bytes : N → N
}.

(** ** k-mer filters (lines 59-82) *)

(** [filter] and its subclass [filter_bf]; [prev_] is a null or non-null
    pointer to the previous filter of the list. *)
Local Unset Elimination Schemes.
Inductive filter :=
| Filter (prev_ : option filter)
| filter_bf (counter_ : mer_dna_bloom_counter) (prev_ : option filter).
Local Set Elimination Schemes.

(** Induction along the [prev_] pointers. *)
Definition filter_prev_ind (P : filter → Prop)
    (Hbase : ∀ p, (∀ g, p = Some g → P g) → P (Filter p))
    (Hbf : ∀ c p, (∀ g, p = Some g → P g) → P (filter_bf c p)) :
  ∀ f, P f :=
  fix go (f : filter) : P f :=
    let prev (p : option filter) : ∀ g, p = Some g → P g :=
      match p with
      | Some g0 => fun g E =>
          match E in _ = o return match o with Some g' => P g' | None => True end
          with eq_refl => go g0 end
      | None => fun g E =>
          match E in _ = o return match o with Some g' => P g' | None => True end
          with eq_refl => I end
      end in
    match f with
    | Filter p => Hbase p (prev p)
    | filter_bf c p => Hbf c p (prev p)
    end.

Definition prev_ (f : filter) : option filter :=
  match f with Filter p => p | filter_bf _ p => p end.

Section Filters.
Context `{!BloomCounterOps}.

(** [operator()] (virtual) together with [and_res]: when [r] holds the
    answer is that of the previous filter, or true when there is none;
    when [r] fails it is false. *)
Fixpoint call (f : filter) (x : mer_dna) : bool :=
  let and_res (r : bool) (p : option filter) :=
    if r then match p with Some g => call g x | None => true end
    else false in
  match f with
  | Filter p => and_res true p
  | filter_bf counter p =>
      let c := check counter x in
      and_res (1 <? c) p
  end.

(** The test a single link of the list adds. *)
Definition own_test (f : filter) (x : mer_dna) : bool :=
  match f with
  | Filter _ => true
  | filter_bf counter _ => 1 <? check counter x
  end.

(** The links of the list, from [f] back to the first one. *)
Fixpoint chain (f : filter) : list filter :=
  f :: match prev_ f with Some g => chain g | None => [] end.

End Filters.

(** ** The shared table, as the driver sees it *)

(** The calls a worker makes on [ary_]. *)
Inductive table_op :=
| Add (key : mer_dna) (delta : N)
| SetKey (key : mer_dna)
| UpdateAdd (key : mer_dna) (delta : N)
| Done.

#[global] Instance table_op_eq_dec : EqDecision table_op.
Proof. solve_decision. Defined.

Definition op_key (o : table_op) : option mer_dna :=
  match o with
  | Add m _ | SetKey m | UpdateAdd m _ => Some m
  | Done => None
  end.

Module Hash.

(** Modelled from the spec: [mer_hash] (jellyfish/hash_counter.hpp is
    missing), in the regime where the table is never full and no count
    saturates: the count of every resident key, and the number of
    workers that have called [done]. *)
Record mer_hash := {
  slots : gmap mer_dna N;
  nb_done : nat
}.

Definition empty : mer_hash := {| slots := ∅; nb_done := 0 |}.

(** Modelled from the spec: [add], "if the key is already resident,
    increments its count by delta; if absent, claims an empty slot and
    initializes it to delta". *)
Definition add (key : mer_dna) (delta : N) (h : mer_hash) : mer_hash :=
  {| slots := <[key := default 0 (slots h !! key) + delta]> (slots h);
     nb_done := nb_done h |}.

(** Modelled from the spec: [set], "marks presence without a meaningful
    count".  The count kept with a key that [set] makes resident is a
    choice of this model; the properties of [set] below are about
    presence only. *)
Definition set (key : mer_dna) (h : mer_hash) : mer_hash :=
  match slots h !! key with
  | Some _ => h
  | None => {| slots := <[key := 0]> (slots h); nb_done := nb_done h |}
  end.

(** Modelled from the spec: [update_add], "only increments a key
    already primed by a prior set; keys not already present are
    ignored". *)
Definition update_add (key : mer_dna) (delta : N) (h : mer_hash) : mer_hash :=
  match slots h !! key with
  | Some _ => add key delta h
  | None => h
  end.

(** Modelled from the spec: [done], "called once by each worker when
    its input is exhausted". *)
Definition done (h : mer_hash) : mer_hash :=
  {| slots := slots h; nb_done := S (nb_done h) |}.

Definition apply (o : table_op) (h : mer_hash) : mer_hash :=
  match o with
  | Add m d => add m d h
  | SetKey m => set m h
  | UpdateAdd m d => update_add m d h
  | Done => done h
  end.

(** The table after a sequence of calls, oldest first. *)
Definition run (ops : list table_op) (h : mer_hash) : mer_hash :=
  foldl (fun h o => apply o h) h ops.

End Hash.

(** Calls that commute with each other: increments and [done]. *)
Definition counting_call (o : table_op) : Prop :=
  match o with Add _ _ | Done => True | _ => False end.

(** ** The worker (lines 84-138) *)

Inductive OPERATION := COUNT | PRIME | UPDATE.

#[global] Instance OPERATION_eq_dec : EqDecision OPERATION.
Proof. solve_decision. Defined.

(** Where a worker is in [start]: in the [for] loop of its [case], at the
    statement after the [switch], or returned. *)
Inductive position := InLoop | AfterSwitch | Returned.

Record worker := {
  at_ : position;
  mers : list mer_dna;      (* what the iterator has still to yield *)
  count : N;                (* size_t count *)
  calls : list table_op     (* the calls made on ary_, oldest first *)
}.

Section Worker.
Context `{!BloomCounterOps}.

(** The table call of each [case]. *)
Definition body (op_ : OPERATION) (m : mer_dna) : table_op :=
  match op_ with
  | COUNT => Add m 1
  | PRIME => SetKey m
  | UPDATE => UpdateAdd m 1
  end.

(** One step of [start]: a turn of the loop, the [break], or the call
    of [done]. *)
Definition step (filter_ : filter) (op_ : OPERATION) (w : worker)
  : option worker :=
  match at_ w with
  | InLoop =>
      match mers w with
      | m :: rest =>
          Some {| at_ := InLoop;
                  mers := rest;
                  count := (count w + 1) mod 2 ^ 64;
                  calls := if call filter_ m
                           then calls w ++ [body op_ m] else calls w |}
      | [] =>
          Some {| at_ := AfterSwitch; mers := []; count := count w;
                  calls := calls w |}
      end
  | AfterSwitch =>
      Some {| at_ := Returned; mers := mers w; count := count w;
              calls := calls w ++ [Done] |}
  | Returned => None
  end.

Fixpoint steps (fuel : nat) (filter_ : filter) (op_ : OPERATION) (w : worker)
  : worker :=
  match fuel with
  | O => w
  | S fuel' =>
      match step filter_ op_ w with
      | Some w' => steps fuel' filter_ op_ w'
      | None => w
      end
  end.

Definition enter (input : list mer_dna) : worker :=
  {| at_ := InLoop; mers := input; count := 0; calls := [] |}.

(** [start(thid)] on a worker whose iterator yields [input]: one step
    per key, one for leaving the loop and one for [done]. *)
Definition start (filter_ : filter) (op_ : OPERATION) (input : list mer_dna)
  : worker :=
  steps (length input + 2) filter_ op_ (enter input).

(** The states a worker goes through. *)
Inductive reaches (filter_ : filter) (op_ : OPERATION) (w : worker)
  : worker → Prop :=
| reaches_refl : reaches filter_ op_ w w
| reaches_step w' w'' :
    reaches filter_ op_ w w' → step filter_ op_ w' = Some w'' →
    reaches filter_ op_ w w''.

(** The calls [start] is expected to make before [done]: the call of
    its [case] for each key of the input the filter accepts. *)
Definition accepted (filter_ : filter) (op_ : OPERATION)
    (input : list mer_dna) : list table_op :=
  body op_ <$> List.filter (call filter_) input.

End Worker.

(** [exec_join(n)]: threads 0 .. n-1 each run [start] to its end; the
    result holds what each of them did. *)
Definition exec_join {X} (n : nat) (start : nat → X) : list X :=
  start <$> seq 0 n.

(** An interleaving of the sequences [ws] (one per thread): each step
    takes the next element of some thread. *)
Inductive interleave {X} : list (list X) → list X → Prop :=
| interleave_nil ws : Forall (fun w => w = []) ws → interleave ws []
| interleave_cons ws i x w l :
    ws !! i = Some (x :: w) → interleave (<[i := w]> ws) l →
    interleave ws (x :: l).

(** ** Aborting runs *)

(** [die << msg] prints the message and ends the process with a failure
    status; a computation that may do so returns [Die msg] instead of a
    value. *)
Inductive result (X : Type) :=
| Ok (x : X)
| Die (msg : string).
Arguments Ok {X} x.
Arguments Die {X} msg.

Definition is_ok {X} (r : result X) : bool :=
  match r with Ok _ => true | Die _ => false end.

(** ** Loading a Bloom filter (lines 149-164) *)

(** A binary input stream: the bytes not yet read and the [good()] bit. *)
Record istream := {
  unread : list Byte.byte;
  good : bool
}.

(** [in.read(buf, n)]: on a good stream holding at least [n] bytes the
    stream stays good; when it runs short the stream fails; a stream that
    has already failed reads nothing. *)
Definition read (n : N) (s : istream) : list Byte.byte * istream :=
  if good s then
    if n <=? N.of_nat (length (unread s)) then
      (take (N.to_nat n) (unread s),
       {| unread := drop (N.to_nat n) (unread s); good := true |})
    else (unread s, {| unread := []; good := false |})
  else ([], s).

(** An [unsigned int] result: [mer_dna::k()] is an unsigned int
    (jellyfish/mer_dna.hpp, missing here), so a product of it is taken
    modulo 2^32. *)
Definition uint (x : N) : N := x mod 2 ^ 32.

(** The fields of a parsed [jellyfish::file_header] this file reads. *)
Record file_header := {
  format : string;
  key_len : N;
  size : N;
  nb_hashes : N;
  matrix1 : matrix;
  matrix2 : matrix
}.

(** The file at a path as [load_bloom_filter] finds it after line 151:
    the header the constructor [file_header(in)] has parsed and the state
    it left the stream in. *)
Record bloom_file := {
  header : file_header;
  in_ : istream
}.


Section Load.
Context `{!BloomCounterOps}.

(** Modelled from the spec: the constructor
    [mer_dna_bloom_counter(size, nb_hashes, in, fns)], which reads the
    counter array of a filter of that size from the stream. *)
Definition bloom_counter_read (size nb_hashes : N) (s : istream)
    (fns : hash_pair) : mer_dna_bloom_counter * istream :=
  let '(data, s') := read (counter_bytes size) s in
  ({| bc_size := size; bc_nb_hashes := nb_hashes; bc_fns := fns;
      bc_data := data |}, s').

Definition load_bloom_filter (k : N) (path : string) (f : bloom_file)
  : result mer_dna_bloom_counter :=
  let header := header f in
  let in_ := in_ f in
  if negb (good in_) then
    Die ("Failed to parse bloom filter file '" +:+ path +:+ "'")
  else if negb (String.eqb (format header) "bloomcounter") then
    Die ("Invalid format '" +:+ format header
         +:+ "'. Expected 'bloomcounter'")
  else if negb (key_len header =? uint (k * 2)) then
    Die "Invalid mer length in bloom filter"
  else
    let fns := {| fn1 := matrix1 header; fn2 := matrix2 header |} in
    let '(res, in_) := bloom_counter_read (size header) (nb_hashes header)
                         in_ fns in
    if negb (good in_) then Die "Bloom filter file is truncated"
    else Ok res.

End Load.

(** ** The driver (lines 176-292) *)

(** The switches of [count_main_cmdline] that the statements modelled
    below read. *)
Record count_main_cmdline := {
  mer_len_arg : N;
  threads_arg : nat;
  canonical_flag : bool;
  text_flag : bool;
  generator_given : bool;
  if_given : bool;
  if_arg : list string;
  file_arg : list string;
  bf_given : bool;
  bf_arg : string;
  no_write_flag : bool;
  no_merge_flag : bool;
  no_unlink_flag : bool;
  lower_count_given : bool;
  lower_count_arg : N;
  upper_count_given : bool;
  upper_count_arg : N;
  output_arg : string;
  timing_given : bool;
  timing_arg : string
}.

(** Modelled from the spec: [dumper_t] (declared in jellyfish.hpp, which
    is missing): the policy knobs [one_file], [min], [max] (unset until
    the driver sets them) and the counter of files written.  The n-th
    file written is named by its index n. *)
Record dumper_t := {
  text_ : bool;
  one_file_ : bool;
  min_ : option N;
  max_ : option N;
  nb_files : nat
}.

Definition file_names (d : dumper_t) : list nat := seq 0 (nb_files d).

Definition with_nb_files (d : dumper_t) (n : nat) : dumper_t :=
  {| text_ := text_ d; one_file_ := one_file_ d; min_ := min_ d;
     max_ := max_ d; nb_files := n |}.

(** What a run does that can be seen from outside, in order. *)
Inductive event :=
| GeneratorStart
| ExecJoin (op : OPERATION) (threads : list (list table_op))
| TableDump (knobs : dumper_t)
| LoadBloom (path : string)
| GeneratorWait
| MergeFiles (files : list nat) (output : string) (min max : N)
| Unlink (file : nat)
| TimingFile (path : string).

(** The collaborators' side of a run: which keys the cursor of each
    thread holds for a parser over given files and pipes, how many times
    the table fills up and dumps during a pass, the Bloom filter file at
    each path, the pipes and exit status of the generators, and whether
    [merge_files] throws. *)
Record world := {
  share : list string → list string → nat → list mer_dna;
  spills : OPERATION → nat;
  bloom_at : string → bloom_file;
  pipes : list string;
  wait : bool;
  merge_error : option string
}.

(** The driver as a computation over the dumper it owns, which logs its
    events and may abort. *)
Record outcome (X : Type) := {
  res : result X;
  dumper : dumper_t;
  log : list event
}.
Arguments res {X} _.
Arguments dumper {X} _.
Arguments log {X} _.

Definition M (X : Type) : Type := dumper_t → outcome X.

Definition ret {X} (x : X) : M X :=
  fun d => {| res := Ok x; dumper := d; log := [] |}.

Definition bind {X Y} (m : M X) (k : X → M Y) : M Y :=
  fun d =>
    let o := m d in
    match res o with
    | Ok x =>
        let o' := k x (dumper o) in
        {| res := res o'; dumper := dumper o'; log := log o ++ log o' |}
    | Die msg => {| res := Die msg; dumper := dumper o; log := log o |}
    end.

Declare Scope run_scope.
Delimit Scope run_scope with run.
Notation "x <- m ;; k" := (bind m (fun x => k))
  (at level 100, m at next level, right associativity) : run_scope.
Notation "m ;; k" := (bind m (fun _ => k))
  (at level 100, right associativity) : run_scope.

Definition die {X} (msg : string) : M X :=
  fun d => {| res := Die msg; dumper := d; log := [] |}.

Definition emit (e : event) : M unit :=
  fun d => {| res := Ok tt; dumper := d; log := [e] |}.

Definition lift {X} (r : result X) : M X :=
  match r with Ok x => ret x | Die msg => die msg end.

Definition when (b : bool) (m : M unit) : M unit :=
  if b then m else ret tt.

Fixpoint for_each {X} (l : list X) (f : X → M unit) : M unit :=
  match l with
  | [] => ret tt
  | x :: l' => (f x ;; for_each l' f)%run
  end.

Definition get_dumper : M dumper_t :=
  fun d => {| res := Ok d; dumper := d; log := [] |}.

Definition set_one_file (b : bool) : M unit :=
  fun d => {| res := Ok tt; log := [];
              dumper := {| text_ := text_ d; one_file_ := b; min_ := min_ d;
                           max_ := max_ d; nb_files := nb_files d |} |}.

Definition set_min (c : N) : M unit :=
  fun d => {| res := Ok tt; log := [];
              dumper := {| text_ := text_ d; one_file_ := one_file_ d;
                           min_ := Some c; max_ := max_ d;
                           nb_files := nb_files d |} |}.

Definition set_max (c : N) : M unit :=
  fun d => {| res := Ok tt; log := [];
              dumper := {| text_ := text_ d; one_file_ := one_file_ d;
                           min_ := min_ d; max_ := Some c;
                           nb_files := nb_files d |} |}.

(** Modelled from the spec: [dumper->dump(ary)] "writes records to a new
    file; increments an internal dump-file counter".  The event keeps the
    knobs the dump ran with. *)
Definition dump : M unit :=
  fun d => {| res := Ok tt; log := [TableDump d];
              dumper := with_nb_files d (S (nb_files d)) |}.

Definition uint64_max : N := 2 ^ 64 - 1.

Section Driver.
Context `{!BloomCounterOps}.
Variable args : count_main_cmdline.
Variable env : world.

Local Open Scope run_scope.

(** The dumper of lines 206-210. *)
Definition new_dumper : dumper_t :=
  {| text_ := text_flag args; one_file_ := false; min_ := None;
     max_ := None; nb_files := 0 |}.

(** A [mer_counter] built over [files] and [pipes] with [op] and
    [filter_], then [exec_join(args.threads_arg)]: what each thread
    calls on the table. *)
Definition pass_threads (files pipes : list string) (op : OPERATION)
    (filter_ : filter) : list (list table_op) :=
  exec_join (threads_arg args) (fun thid =>
    calls (start filter_ op
             (mer_iterator (share env files pipes thid)
                           (canonical_flag args)))).

(** Modelled from the spec: "when the table signals full, the Dumper
    serializes its contents and the table is reset; this may happen
    multiple times".  The table calls the dumper it was given (line
    211) each time it fills up during a pass. *)
Definition spill (op : OPERATION) : M unit :=
  for_each (seq 0 (spills env op)) (fun _ => dump).

(** A pass: the threads' calls, and the dumps made while they ran. *)
Definition count_pass (files pipes : list string) (op : OPERATION)
    (filter_ : filter) : M unit :=
  emit (ExecJoin op (pass_threads files pipes op filter_)) ;;
  spill op.

(** Lines 215-223. *)
Definition prime : M OPERATION :=
  if if_given args then
    count_pass (if_arg args) [] PRIME (Filter None) ;;
    ret UPDATE
  else ret COUNT.

(** Lines 229-234. *)
Definition make_filter : M filter :=
  if bf_given args then
    emit (LoadBloom (bf_arg args)) ;;
    bc <- lift (load_bloom_filter (mer_len_arg args) (bf_arg args)
                  (bloom_at env (bf_arg args))) ;;
    ret (filter_bf bc None)
  else ret (Filter None).

(** Lines 244-250. *)
Definition wait_generators : M unit :=
  when (generator_given args)
    (emit GeneratorWait ;;
     if negb (wait env) then die "Some generator commands failed"
     else ret tt).

(** Lines 269-273: the call, and the [catch] that aborts. *)
Definition merge_files (files : list nat) (output : string) (min max : N)
  : M unit :=
  emit (MergeFiles files output min max) ;;
  match merge_error env with
  | Some what => die what
  | None => ret tt
  end.

(** Lines 254-280. *)
Definition write : M unit :=
  when (negb (no_write_flag args))
    (d <- get_dumper ;;
     if decide (nb_files d = 0%nat) then
       set_one_file true ;;
       when (lower_count_given args) (set_min (lower_count_arg args)) ;;
       when (upper_count_given args) (set_max (upper_count_arg args)) ;;
       dump
     else
       dump ;;
       when (negb (no_merge_flag args))
         (d <- get_dumper ;;
          let files := file_names d in
          let min := if lower_count_given args then lower_count_arg args
                     else 0%N in
          let max := if upper_count_given args then upper_count_arg args
                     else uint64_max in
          merge_files files (output_arg args) min max ;;
          when (negb (no_unlink_flag args))
            (d <- get_dumper ;;
             for_each (seq 0 (nb_files d)) (fun i =>
               match files !! i with
               | Some f => emit (Unlink f)
               | None => ret tt
               end)))).

(** Lines 187-250: the generators, the priming pass, the filter, the
    counting pass and the wait for the generators.  The clock reads,
    the header bookkeeping and the signal handler leave no event. *)
Definition counting : M unit :=
  when (generator_given args) (emit GeneratorStart) ;;
  do_op <- prime ;;
  let pipes := if generator_given args then pipes env else [] in
  mer_filter <- make_filter ;;
  count_pass (file_arg args) pipes do_op mer_filter ;;
  wait_generators.

(** [count_main], from the parsed command line on. *)
Definition count_main_body : M Z :=
  counting ;;
  write ;;
  when (timing_given args) (emit (TimingFile (timing_arg args))) ;;
  ret 0%Z.

Definition count_main : outcome Z := count_main_body new_dumper.

End Driver.

(** ** The parts of a run *)

(** The dumps of a table that fills up [n] times, from dumper [d] on. *)
Definition spill_dumps (d : dumper_t) (n : nat) : list event :=
  (fun i => TableDump (with_nb_files d (nb_files d + i))) <$> seq 0 n.

Section Parts.
Context `{!BloomCounterOps}.
Variable args : count_main_cmdline.
Variable env : world.

(** The operation of the main pass. *)
Definition do_op : OPERATION := if if_given args then UPDATE else COUNT.

Definition main_pipes : list string :=
  if generator_given args then pipes env else [].

Definition start_log : list event :=
  if generator_given args then [GeneratorStart] else [].

Definition prime_log (d : dumper_t) : list event :=
  if if_given args then
    ExecJoin PRIME (pass_threads args env (if_arg args) [] PRIME (Filter None))
    :: spill_dumps d (spills env PRIME)
  else [].

Definition after_prime (d : dumper_t) : dumper_t :=
  if if_given args then with_nb_files d (nb_files d + spills env PRIME)
  else d.

(** The filter of the main pass, when the run gets that far. *)
Definition loaded_filter : result filter :=
  if bf_given args then
    match load_bloom_filter (mer_len_arg args) (bf_arg args)
            (bloom_at env (bf_arg args)) with
    | Ok bc => Ok (filter_bf bc None)
    | Die msg => Die msg
    end
  else Ok (Filter None).

Definition load_log : list event :=
  if bf_given args then [LoadBloom (bf_arg args)] else [].

Definition main_log (d : dumper_t) (f : filter) : list event :=
  ExecJoin do_op (pass_threads args env (file_arg args) main_pipes do_op f)
  :: spill_dumps d (spills env do_op).

Definition after_main (d : dumper_t) : dumper_t :=
  with_nb_files d (nb_files d + spills env do_op).

Definition wait_log : list event :=
  if generator_given args then [GeneratorWait] else [].

Definition wait_res : result unit :=
  if generator_given args && negb (wait env)
  then Die "Some generator commands failed" else Ok tt.

Definition timing_log : list event :=
  if timing_given args then [TimingFile (timing_arg args)] else [].

(** The log up to the end of the wait for the generators when the main
    pass runs with filter [f], and the dumper at that point. *)
Definition counted_log (f : filter) : list event :=
  start_log ++ prime_log (new_dumper args) ++ load_log
  ++ main_log (after_prime (new_dumper args)) f ++ wait_log.

Definition counted_dumper : dumper_t :=
  after_main (after_prime (new_dumper args)).

End Parts.

(** ** Reading a log *)

Definition done_calls (l : list table_op) : nat :=
  length (List.filter (fun o => bool_decide (o = Done)) l).

(** What holds of every state of a worker: [done] has not been called
    while it is in the loop, and once it has been called no key is left. *)
Definition worker_inv (w : worker) : Prop :=
  match at_ w with
  | InLoop => done_calls (calls w) = 0%nat
  | AfterSwitch => mers w = [] ∧ done_calls (calls w) = 0%nat
  | Returned => mers w = [] ∧ done_calls (calls w) = 1%nat
  end.

Definition passes (l : list event)
  : list (OPERATION * list (list table_op)) :=
  omap (fun e => match e with ExecJoin op ths => Some (op, ths) | _ => None end) l.

Definition dumps (l : list event) : list dumper_t :=
  omap (fun e => match e with TableDump d => Some d | _ => None end) l.

Definition merges (l : list event) : list (list nat * string * N * N) :=
  omap (fun e => match e with
                 | MergeFiles fs out mn mx => Some (fs, out, mn, mx)
                 | _ => None
                 end) l.

Definition unlinks (l : list event) : list nat :=
  omap (fun e => match e with Unlink f => Some f | _ => None end) l.

Definition is_load (e : event) : bool :=
  match e with LoadBloom _ => true | _ => false end.

(** The knobs of the one dump of a run that never spilled: [one_file]
    set, and each bound set when its switch is given. *)
Definition one_file_knobs (args : count_main_cmdline) (d : dumper_t)
  : dumper_t :=
  {| text_ := text_ d;
     one_file_ := true;
     min_ := if lower_count_given args then Some (lower_count_arg args)
             else min_ d;
     max_ := if upper_count_given args then Some (upper_count_arg args)
             else max_ d;
     nb_files := nb_files d |}.

(** The bounds of the merge. *)
Definition merge_min (args : count_main_cmdline) : N :=
  if lower_count_given args then lower_count_arg args else 0.

Definition merge_max (args : count_main_cmdline) : N :=
  if upper_count_given args then upper_count_arg args else 2 ^ 64 - 1.

(** ** Sample inputs *)

Module Sample.

(** A one-hash counter with one byte per counter, enough to run the
    driver on examples. *)
#[export] Instance byte_counters : BloomCounterOps := {|
  check bc m :=
    match bc_data bc !! N.to_nat (word m mod bc_size bc) with
    | Some b => Byte.to_N b
    | None => 0
    end;
  counter_bytes n := n
|}.

Definition acgtacgt : list base := [A; C; G; T; A; C; G; T].

Definition bloom_header : file_header :=
  {| format := "bloomcounter"; key_len := 8; size := 4; nb_hashes := 1;
     matrix1 := []; matrix2 := [] |}.

(** A well-formed filter file for k = 4 with four counters. *)
Definition bloom_ok : bloom_file :=
  {| header := bloom_header;
     in_ := {| unread := [Byte.x02; Byte.x00; Byte.x01; Byte.x03];
               good := true |} |}.

(** A missing file: the stream has failed, no header was read and there
    is no byte to read. *)
Definition bloom_missing : bloom_file :=
  {| header := {| format := ""; key_len := 0; size := 0; nb_hashes := 0;
                  matrix1 := []; matrix2 := [] |};
     in_ := {| unread := []; good := false |} |}.


(** Two threads counting 4-mers of reads.fa into mer_counts.jf, with a
    lower bound of 2; the switches say whether generators, an
    intersection file and a Bloom filter are given and whether merging is
    disabled. *)
Definition args (gen_ if_ bf_ no_merge_ : bool) : count_main_cmdline :=
  {| mer_len_arg := 4; threads_arg := 2; canonical_flag := false;
     text_flag := false; generator_given := gen_;
     if_given := if_; if_arg := ["genes.fa"]; file_arg := ["reads.fa"];
     bf_given := bf_; bf_arg := "reads.bc";
     no_write_flag := false; no_merge_flag := no_merge_;
     no_unlink_flag := false;
     lower_count_given := true; lower_count_arg := 2;
     upper_count_given := false; upper_count_arg := 0;
     output_arg := "mer_counts.jf";
     timing_given := false; timing_arg := "" |}.

(** Thread 0 holds the first three keys of the sequence, thread 1 the
    last two. *)
Definition split_share (thid : nat) : list mer_dna :=
  match thid with
  | 0%nat => take 3 (windows 4 acgtacgt)
  | 1%nat => drop 3 (windows 4 acgtacgt)
  | _ => []
  end.

(** The calls of the two threads in one order of arrival. *)
Definition schedule : list table_op :=
  [Add [A; C; G; T] 1; Add [T; A; C; G] 1; Add [C; G; T; A] 1;
   Add [A; C; G; T] 1; Done; Add [G; T; A; C] 1; Done].

(** A world in which the table fills up [nb_spills] times in each pass,
    the generators end with status [wait_] and [merge_files] throws when
    [merge] holds a message. *)
Definition env (nb_spills : nat) (merge : option string) (wait_ : bool)
  : world :=
  {| share := fun _ _ thid => split_share thid;
     spills := fun _ => nb_spills;
     bloom_at := fun _ => bloom_ok;
     pipes := ["pipe0"];
     wait := wait_;
     merge_error := merge |}.

End Sample.

(** ** Further readings of filters, dumps and logs *)

(** The Bloom counters of the links of a filter list, from [f] back to
    the first link. *)
Fixpoint counters (f : filter) : list mer_dna_bloom_counter :=
  match f with
  | Filter p => match p with Some g => counters g | None => [] end
  | filter_bf c p => c :: match p with Some g => counters g | None => [] end
  end.

(** A dump that runs with a lower or an upper count bound. *)
Definition has_bound (d : dumper_t) : bool :=
  match min_ d, max_ d with
  | None, None => false
  | _, _ => true
  end.

(** The number of files of a run's dumper once counting is over. *)
Definition spilled (args : count_main_cmdline) (env : world) : nat :=
  (if if_given args then spills env PRIME else 0) + spills env (do_op args).

(** The same file with other bytes left in its stream. *)
Definition with_unread (f : bloom_file) (bytes : list Byte.byte) : bloom_file :=
  {| header := header f;
     in_ := {| unread := bytes; good := good (in_ f) |} |}.

(** The same file with other hash parameters in its header. *)
Definition with_hashes (f : bloom_file) (n : N) (m1 m2 : matrix) : bloom_file :=
  {| header := {| format := format (header f); key_len := key_len (header f);
                  size := size (header f); nb_hashes := n;
                  matrix1 := m1; matrix2 := m2 |};
     in_ := in_ f |}.

(** How many times a key occurs in a list of keys. *)
Definition occurrences (m : mer_dna) (l : list mer_dna) : nat :=
  length (List.filter (fun x => bool_decide (x = m)) l).

Definition is_start (e : event) : bool :=
  match e with GeneratorStart => true | _ => false end.

Definition is_wait (e : event) : bool :=
  match e with GeneratorWait => true | _ => false end.

Definition is_timing (e : event) : bool :=
  match e with TimingFile _ => true | _ => false end.

(** No event of [l] is of the kind [p]. *)
Definition none_of (p : event → bool) (l : list event) : Prop :=
  Forall (fun e => p e = false) l.

Module Capped.

(** Modelled from the spec: a table slot whose count is a narrow bit
    field: "overflow of a single slot's count is itself a reportable
    condition (saturate-and-flag, not silently wrap)".  A slot holds its
    count, at most [cap], and the flag raised when an increment went
    beyond [cap]. *)
Record mer_hash := {
  slots : gmap mer_dna (N * bool);
  nb_done : nat
}.

Definition empty : mer_hash := {| slots := ∅; nb_done := 0 |}.

(** Modelled from the spec: [add] with saturation. *)
Definition add (cap : N) (key : mer_dna) (delta : N) (h : mer_hash)
  : mer_hash :=
  let '(c, flag) := default (0, false) (slots h !! key) in
  {| slots := <[key := (N.min cap (c + delta), flag || (cap <? c + delta))]>
                (slots h);
     nb_done := nb_done h |}.

(** Modelled from the spec: [set], [update_add] and [done], as in
    [Hash]. *)
Definition set (key : mer_dna) (h : mer_hash) : mer_hash :=
  match slots h !! key with
  | Some _ => h
  | None => {| slots := <[key := (0, false)]> (slots h);
               nb_done := nb_done h |}
  end.

Definition update_add (cap : N) (key : mer_dna) (delta : N) (h : mer_hash)
  : mer_hash :=
  match slots h !! key with
  | Some _ => add cap key delta h
  | None => h
  end.

Definition done (h : mer_hash) : mer_hash :=
  {| slots := slots h; nb_done := S (nb_done h) |}.

Definition apply (cap : N) (o : table_op) (h : mer_hash) : mer_hash :=
  match o with
  | Add m d => add cap m d h
  | SetKey m => set m h
  | UpdateAdd m d => update_add cap m d h
  | Done => done h
  end.

Definition run (cap : N) (ops : list table_op) (h : mer_hash) : mer_hash :=
  foldl (fun h o => apply cap o h) h ops.

(** What a slot with bound [cap] shows of a count [c]. *)
Definition squash (cap c : N) : N * bool := (N.min cap c, cap <? c).

(** The saturating table that shows the counts of [h]. *)
Definition view (cap : N) (h : Hash.mer_hash) : mer_hash :=
  {| slots := squash cap <$> Hash.slots h; nb_done := Hash.nb_done h |}.

End Capped.

Module Cases.

(** A world like [Sample.env] whose Bloom filter file is missing. *)
Definition env_unparsed (nb_spills : nat) : world :=
  {| share := fun _ _ thid => Sample.split_share thid;
     spills := fun _ => nb_spills;
     bloom_at := fun _ => Sample.bloom_missing;
     pipes := ["pipe0"];
     wait := true;
     merge_error := None |}.

(** The counter of the sample filter file, and one with other
    estimates. *)
Definition counter : mer_dna_bloom_counter :=
  {| bc_size := 4; bc_nb_hashes := 1;
     bc_fns := {| fn1 := []; fn2 := [] |};
     bc_data := [Byte.x02; Byte.x00; Byte.x01; Byte.x03] |}.

Definition counter' : mer_dna_bloom_counter :=
  {| bc_size := 4; bc_nb_hashes := 1;
     bc_fns := {| fn1 := []; fn2 := [] |};
     bc_data := [Byte.x00; Byte.x05; Byte.x00; Byte.x02] |}.

(** One thread whose iterator yields ACGT and then CGTA. *)
Definition one_share (thid : nat) : list mer_dna :=
  match thid with
  | 0%nat => [[A; C; G; T]; [C; G; T; A]]
  | _ => []
  end.

(** Switches like [Sample.args], with writing disabled or a timing file
    asked for. *)
Definition args (no_write_ timing_ : bool) : count_main_cmdline :=
  {| mer_len_arg := 4; threads_arg := 2; canonical_flag := false;
     text_flag := false; generator_given := false;
     if_given := false; if_arg := []; file_arg := ["reads.fa"];
     bf_given := false; bf_arg := "";
     no_write_flag := no_write_; no_merge_flag := false;
     no_unlink_flag := false;
     lower_count_given := false; lower_count_arg := 0;
     upper_count_given := true; upper_count_arg := 100;
     output_arg := "mer_counts.jf";
     timing_given := timing_; timing_arg := "timing.txt" |}.

End Cases.


(** * Properties *)

(** ** Filters *)

Section FilterFacts.
Context `{!BloomCounterOps}.

Lemma call_unfold f x :
  call f x = own_test f x &&
             match prev_ f with Some g => call g x | None => true end.
Proof. destruct f as [p|c p]; simpl; [done|]. by destruct (1 <? check c x). Qed.

Lemma chain_unfold f :
  chain f = f :: match prev_ f with Some g => chain g | None => [] end.
Proof. by destruct f. Qed.

Lemma call_forallb f x :
  call f x = forallb (fun g => own_test g x) (chain f).
Proof.
  induction f as [p IH|c p IH] using filter_prev_ind;
    rewrite call_unfold, chain_unfold; simpl; f_equal;
    destruct p as [g|]; simpl; auto.
Qed.

Lemma call_default x : call (Filter None) x = true.
Proof. reflexivity. Qed.

End FilterFacts.

(** ** The worker *)

Lemma done_calls_app l l' :
  done_calls (l ++ l') = (done_calls l + done_calls l')%nat.
Proof. unfold done_calls. by rewrite List.filter_app, length_app. Qed.

Lemma done_calls_zero l : done_calls l = 0%nat ↔ Done ∉ l.
Proof.
  unfold done_calls. induction l as [|o l IH]; simpl.
  - split; [intros _; apply not_elem_of_nil | done].
  - rewrite not_elem_of_cons. case_bool_decide; simpl.
    + split; [done | intros [? _]; congruence].
    + rewrite IH. split; [intros ?; split; [congruence | done] | by intros [_ ?]].
Qed.

Section WorkerFacts.
Context `{!BloomCounterOps}.
Variable filter_ : filter.
Variable op_ : OPERATION.

Lemma body_not_done m : body op_ m ≠ Done.
Proof. by destruct op_. Qed.

Lemma done_calls_accepted input : done_calls (accepted filter_ op_ input) = 0%nat.
Proof.
  apply done_calls_zero. unfold accepted.
  intros (m & E & _)%list_elem_of_fmap. by apply (body_not_done m).
Qed.

Lemma accepted_cons m input :
  accepted filter_ op_ (m :: input) =
  (if call filter_ m then [body op_ m] else []) ++ accepted filter_ op_ input.
Proof. unfold accepted. simpl. by destruct (call filter_ m). Qed.

(** The loop, run for as many steps as there are keys left. *)
Lemma steps_loop input : ∀ n c cs,
  ∃ c', steps (length input + n) filter_ op_
          {| at_ := InLoop; mers := input; count := c; calls := cs |}
        = steps n filter_ op_
            {| at_ := InLoop; mers := []; count := c';
               calls := cs ++ accepted filter_ op_ input |}.
Proof.
  induction input as [|m input IH]; intros n c cs.
  - exists c. by rewrite app_nil_r.
  - simpl. rewrite accepted_cons.
    destruct (IH n ((c + 1) mod 2 ^ 64)
                (if call filter_ m then cs ++ [body op_ m] else cs)) as [c' E].
    exists c'. rewrite E. destruct (call filter_ m); simpl;
      by rewrite <- ?app_assoc.
Qed.

Lemma start_eq input :
  ∃ c, start filter_ op_ input =
       {| at_ := Returned; mers := []; count := c;
          calls := accepted filter_ op_ input ++ [Done] |}.
Proof.
  unfold start, enter.
  destruct (steps_loop input 2 0 []) as [c E]. exists c. by rewrite E.
Qed.

Lemma calls_start input :
  calls (start filter_ op_ input) = accepted filter_ op_ input ++ [Done].
Proof. by destruct (start_eq input) as [c ->]. Qed.

Lemma reaches_steps n : ∀ w0 w,
  reaches filter_ op_ w0 w → reaches filter_ op_ w0 (steps n filter_ op_ w).
Proof.
  induction n as [|n IH]; intros w0 w R; simpl; [done|].
  destruct (step filter_ op_ w) as [w'|] eqn:E; [|done].
  apply IH. by eapply reaches_step.
Qed.

Lemma step_inv w w' :
  worker_inv w → step filter_ op_ w = Some w' → worker_inv w'.
Proof.
  unfold worker_inv, step. destruct w as [[] ms c cs]; simpl; [| |done].
  - intros Hd. destruct ms as [|m ms]; intros [= <-]; simpl; [done|].
    destruct (call filter_ m); [|done].
    rewrite done_calls_app, Hd. simpl.
    unfold done_calls. simpl. case_bool_decide as E; [|done].
    by apply body_not_done in E.
  - intros [-> Hd] [= <-]. simpl. by rewrite done_calls_app, Hd.
Qed.

Lemma reaches_inv input w :
  reaches filter_ op_ (enter input) w → worker_inv w.
Proof.
  induction 1 as [|w' w'' R IH E]; [done|]. by eapply step_inv.
Qed.

End WorkerFacts.

(** ** Running the driver *)

Lemma with_nb_files_id d : with_nb_files d (nb_files d) = d.
Proof. by destruct d. Qed.

Lemma bind_ok {X Y} (m : M X) (k : X → M Y) d x d' l :
  m d = {| res := Ok x; dumper := d'; log := l |} →
  bind m k d = {| res := res (k x d'); dumper := dumper (k x d');
                  log := l ++ log (k x d') |}.
Proof. unfold bind. by intros ->. Qed.

Lemma bind_known {X Y} (m : M X) (k : X → M Y) d o :
  m d = o →
  bind m k d =
  match res o with
  | Ok x => {| res := res (k x (dumper o)); dumper := dumper (k x (dumper o));
               log := log o ++ log (k x (dumper o)) |}
  | Die msg => {| res := Die msg; dumper := dumper o; log := log o |}
  end.
Proof. by intros <-. Qed.

Lemma bind_get {Y} (k : dumper_t → M Y) d : bind get_dumper k d = k d d.
Proof. unfold bind; simpl. by destruct (k d d). Qed.

Lemma bind_emit {Y} e (k : unit → M Y) d :
  bind (emit e) k d =
  {| res := res (k tt d); dumper := dumper (k tt d); log := e :: log (k tt d) |}.
Proof. done. Qed.

Lemma bind_dump {Y} (k : unit → M Y) d :
  bind dump k d =
  let o := k tt (with_nb_files d (S (nb_files d))) in
  {| res := res o; dumper := dumper o; log := TableDump d :: log o |}.
Proof. done. Qed.

Lemma for_each_dump n : ∀ a d,
  for_each (seq a n) (fun _ => dump) d =
  {| res := Ok tt; dumper := with_nb_files d (nb_files d + n);
     log := spill_dumps d n |}.
Proof.
  unfold spill_dumps.
  induction n as [|n IH]; intros a d; simpl.
  - unfold ret. by rewrite Nat.add_0_r, with_nb_files_id.
  - erewrite bind_ok by reflexivity. rewrite IH. simpl.
    rewrite Nat.add_0_r, with_nb_files_id, <- (fmap_S_seq 0).
    change (list_fmap nat event ?f ?l) with (f <$> l).
    rewrite <- list_fmap_compose, Nat.add_succ_r.
    do 2 f_equal. apply list_fmap_ext. intros _ i _. simpl.
    by rewrite Nat.add_succ_r.
Qed.

Section DriverFacts.
Context `{!BloomCounterOps}.
Variable args : count_main_cmdline.
Variable env : world.

Lemma count_pass_eq files pipes op f d :
  count_pass args env files pipes op f d =
  {| res := Ok tt;
     dumper := with_nb_files d (nb_files d + spills env op);
     log := ExecJoin op (pass_threads args env files pipes op f)
            :: spill_dumps d (spills env op) |}.
Proof.
  unfold count_pass, spill. erewrite bind_ok by reflexivity.
  by rewrite for_each_dump.
Qed.

Lemma prime_eq d :
  prime args env d =
  if if_given args then
    {| res := Ok UPDATE;
       dumper := with_nb_files d (nb_files d + spills env PRIME);
       log := ExecJoin PRIME
                (pass_threads args env (if_arg args) [] PRIME (Filter None))
              :: spill_dumps d (spills env PRIME) |}
  else {| res := Ok COUNT; dumper := d; log := [] |}.
Proof.
  unfold prime. destruct (if_given args); [|done].
  erewrite bind_ok by apply count_pass_eq. simpl. by rewrite app_nil_r.
Qed.

Lemma make_filter_eq d :
  make_filter args env d =
  if bf_given args then
    {| res := match load_bloom_filter (mer_len_arg args) (bf_arg args)
                      (bloom_at env (bf_arg args)) with
              | Ok bc => Ok (filter_bf bc None)
              | Die msg => Die msg
              end;
       dumper := d;
       log := [LoadBloom (bf_arg args)] |}
  else {| res := Ok (Filter None); dumper := d; log := [] |}.
Proof.
  unfold make_filter. destruct (bf_given args); [|done].
  erewrite bind_ok by reflexivity. simpl.
  by destruct (load_bloom_filter _ _ _).
Qed.

Lemma wait_generators_eq d :
  wait_generators args env d =
  {| res := if generator_given args && negb (wait env)
            then Die "Some generator commands failed" else Ok tt;
     dumper := d;
     log := if generator_given args then [GeneratorWait] else [] |}.
Proof.
  unfold wait_generators, when.
  destruct (generator_given args); [|done].
  erewrite bind_ok by reflexivity. simpl. by destruct (wait env).
Qed.

Lemma unlink_loop files d : ∀ m a,
  (a + m ≤ length files)%nat →
  for_each (seq a m) (fun i =>
    match files !! i with
    | Some f => emit (Unlink f)
    | None => ret tt
    end) d =
  {| res := Ok tt; dumper := d;
     log := Unlink <$> take m (drop a files) |}.
Proof.
  induction m as [|m IH]; intros a Hle; simpl.
  - done.
  - destruct (lookup_lt_is_Some_2 files a) as [f Hf]; [lia|].
    rewrite Hf. erewrite bind_ok by reflexivity.
    rewrite IH by lia. simpl.
    rewrite (drop_S _ _ _ Hf). done.
Qed.

Lemma unlink_all d :
  bind get_dumper (fun d0 =>
    for_each (seq 0 (nb_files d0)) (fun i =>
      match file_names d !! i with
      | Some f => emit (Unlink f)
      | None => ret tt
      end)) d =
  {| res := Ok tt; dumper := d; log := Unlink <$> file_names d |}.
Proof.
  rewrite bind_get, unlink_loop by (unfold file_names; by rewrite length_seq).
  rewrite drop_0, take_ge; [done|]. unfold file_names. by rewrite length_seq.
Qed.

Lemma merge_files_eq files out mn mx d :
  merge_files env files out mn mx d =
  {| res := match merge_error env with
            | Some what => Die what
            | None => Ok tt
            end;
     dumper := d;
     log := [MergeFiles files out mn mx] |}.
Proof.
  unfold merge_files. rewrite bind_emit.
  by destruct (merge_error env).
Qed.

Lemma write_eq d :
  write args env d =
  if no_write_flag args then {| res := Ok tt; dumper := d; log := [] |}
  else if decide (nb_files d = 0%nat) then
    {| res := Ok tt;
       dumper := with_nb_files (one_file_knobs args d) (S (nb_files d));
       log := [TableDump (one_file_knobs args d)] |}
  else if no_merge_flag args then
    {| res := Ok tt; dumper := with_nb_files d (S (nb_files d));
       log := [TableDump d] |}
  else
    {| res := match merge_error env with
              | Some what => Die what
              | None => Ok tt
              end;
       dumper := with_nb_files d (S (nb_files d));
       log := TableDump d
              :: MergeFiles (seq 0 (S (nb_files d))) (output_arg args)
                   (merge_min args) (merge_max args)
              :: match merge_error env with
                 | Some _ => []
                 | None => if no_unlink_flag args then []
                           else Unlink <$> seq 0 (S (nb_files d))
                 end |}.
Proof.
  unfold write, when. destruct (no_write_flag args); simpl; [done|].
  rewrite bind_get.
  destruct (decide (nb_files d = 0%nat)) as [E0|NE].
  - unfold bind, one_file_knobs, with_nb_files; simpl.
    by destruct (lower_count_given args), (upper_count_given args).
  - rewrite bind_dump. cbv zeta.
    destruct (no_merge_flag args); cbn [negb]; [done|].
    rewrite bind_get. cbv zeta.
    fold (merge_min args). change uint64_max with (2 ^ 64 - 1).
    fold (merge_max args).
    erewrite bind_known by apply merge_files_eq. cbn [res dumper log].
    destruct (merge_error env) as [what|]; [done|].
    destruct (no_unlink_flag args); cbn [negb]; [done|].
    rewrite unlink_all. done.
Qed.

Lemma counting_eq d :
  counting args env d =
  match loaded_filter args env with
  | Die msg =>
      {| res := Die msg; dumper := after_prime args env d;
         log := start_log args ++ prime_log args env d ++ load_log args |}
  | Ok f =>
      {| res := wait_res args env;
         dumper := after_main args env (after_prime args env d);
         log := start_log args ++ prime_log args env d ++ load_log args
                ++ main_log args env (after_prime args env d) f
                ++ wait_log args |}
  end.
Proof.
  unfold counting.
  erewrite bind_known
    with (o := {| res := Ok tt; dumper := d; log := start_log args |})
    by (unfold when, start_log; by destruct (generator_given args)).
  cbn [res dumper log].
  erewrite bind_known by apply prime_eq.
  assert (∀ X (a b : outcome X), res (if if_given args then a else b)
          = if if_given args then res a else res b) as Hres
    by (intros; by destruct (if_given args)).
  fold (main_pipes args env).
  unfold loaded_filter, after_prime, prime_log, main_log, after_main,
    load_log, wait_log, wait_res, do_op, spill_dumps.
  destruct (if_given args); cbn [res dumper log];
    (erewrite bind_known by apply make_filter_eq);
    destruct (bf_given args); cbn [res dumper log];
    try destruct (load_bloom_filter _ _ _) as [bc|msg]; cbn [res dumper log];
    try (erewrite bind_known by apply count_pass_eq);
    rewrite ?wait_generators_eq; cbn [res dumper log];
    unfold spill_dumps; rewrite ?app_nil_r; try done.
Qed.

Lemma count_main_eq :
  count_main args env =
  let o := counting args env (new_dumper args) in
  match res o with
  | Die msg => {| res := Die msg; dumper := dumper o; log := log o |}
  | Ok _ =>
      let o' := write args env (dumper o) in
      match res o' with
      | Die msg =>
          {| res := Die msg; dumper := dumper o'; log := log o ++ log o' |}
      | Ok _ =>
          {| res := Ok 0%Z; dumper := dumper o';
             log := log o ++ log o' ++ timing_log args |}
      end
  end.
Proof.
  unfold count_main, count_main_body. cbv zeta.
  rewrite (bind_known (counting args env) _ _ _ eq_refl).
  destruct (res (counting _ _ _)); [|done].
  rewrite (bind_known (write args env) _ _ _ eq_refl).
  destruct (res (write _ _ _)); cbn [res dumper log]; [|done].
  unfold when, timing_log. by destruct (timing_given args).
Qed.

End DriverFacts.

(** ** The table under concurrent workers *)

Lemma interleave_perm {X} (ws : list (list X)) l :
  interleave ws l → concat ws ≡ₚ l.
Proof.
  induction 1 as [ws Hnil|ws i x w l Hi _ IH].
  - induction Hnil as [|w ws -> _ IH]; [done|]. by simpl.
  - rewrite <- IH. clear IH.
    revert i Hi. induction ws as [|w0 ws IHws]; intros [|i] Hi; try done.
    + simpl in *. injection Hi as ->. done.
    + simpl in *. rewrite (IHws i Hi).
      by rewrite Permutation_middle.
Qed.

Module HashFacts.
Import Hash.

Lemma mer_hash_eq h h' :
  slots h = slots h' → nb_done h = nb_done h' → h = h'.
Proof. destruct h, h'; simpl. by intros -> ->. Qed.

Lemma add_add k d k' d' h : add k d (add k' d' h) = add k' d' (add k d h).
Proof.
  apply mer_hash_eq; [|done]. simpl.
  destruct (decide (k = k')) as [->|Hne].
  - rewrite !lookup_insert_eq, !insert_insert_eq. simpl. f_equal. lia.
  - rewrite (lookup_insert_ne _ k' k), (lookup_insert_ne _ k k') by done.
    by apply insert_insert_ne.
Qed.

Lemma apply_comm o o' h :
  counting_call o → counting_call o' →
  apply o (apply o' h) = apply o' (apply o h).
Proof.
  destruct o, o'; simpl; try done; intros _ _.
  apply add_add.
Qed.

Lemma run_perm l l' :
  l ≡ₚ l' → Forall counting_call l → ∀ h, run l h = run l' h.
Proof.
  unfold run. induction 1 as [|o l l' Hp IH|o o' l|l l' l'' Hp IH Hp' IH'];
    intros Hall h; simpl.
  - done.
  - apply IH. by inversion Hall.
  - f_equal. inversion Hall as [|? ? Ho Hall']. inversion Hall'.
    by apply apply_comm.
  - rewrite IH by done. apply IH'. by rewrite <- Hp.
Qed.

Lemma run_app l l' h : run (l ++ l') h = run l' (run l h).
Proof. unfold run. apply foldl_app. Qed.

Lemma run_done n h :
  run (replicate n Done) h = {| slots := slots h; nb_done := n + nb_done h |}.
Proof.
  revert h. induction n as [|n IH]; intros h; simpl.
  - by destruct h.
  - unfold run in *. simpl. rewrite IH. simpl. f_equal. lia.
Qed.

Lemma nb_done_adds (l : list mer_dna) h :
  nb_done (run ((fun m => Add m 1) <$> l) h) = nb_done h.
Proof.
  revert h. induction l as [|m l IH]; intros h; [done|].
  unfold run in *. simpl. by rewrite IH.
Qed.

End HashFacts.

Section CountScenario.
Context `{!BloomCounterOps}.

Lemma accepted_default op_ input :
  accepted (Filter None) op_ input = body op_ <$> input.
Proof.
  unfold accepted. f_equal.
  induction input as [|m input IH]; [done|].
  cbn [List.filter]. rewrite call_default. by f_equal.
Qed.

Lemma concat_threads {X} (f : X → table_op) (g : nat → list X) l :
  concat ((fun i => (f <$> g i) ++ [Done]) <$> l)
  ≡ₚ (f <$> concat (g <$> l)) ++ replicate (length l) Done.
Proof.
  induction l as [|i l IH]; simpl; [done|].
  rewrite IH, fmap_app, <- !app_assoc. f_equal.
  simpl. by rewrite Permutation_middle.
Qed.

Lemma counting_call_adds (l : list mer_dna) n :
  Forall counting_call (((fun m => Add m 1) <$> l) ++ replicate n Done).
Proof.
  apply Forall_app. split.
  - apply Forall_fmap, Forall_true. done.
  - apply Forall_replicate. done.
Qed.

(** The table after a COUNT pass over any split of the keys [l] among
    [n] threads, whatever the order in which their calls arrive. *)
Lemma count_pass_table n (share : nat → list mer_dna) l schedule :
  interleave (exec_join n share) l →
  interleave (exec_join n (fun thid =>
    calls (start (Filter None) COUNT (mer_iterator (share thid) false))))
    schedule →
  Hash.run schedule Hash.empty =
  {| Hash.slots := Hash.slots (Hash.run ((fun m => Add m 1) <$> l) Hash.empty);
     Hash.nb_done := n |}.
Proof.
  intros Hl%interleave_perm Hs%interleave_perm. unfold exec_join in *.
  assert (schedule ≡ₚ ((fun m => Add m 1) <$> l) ++ replicate n Done) as Hp.
  { rewrite <- Hs, <- Hl.
    assert ((fun thid => calls (start (Filter None) COUNT
                                  (mer_iterator (share thid) false)))
              <$> seq 0 n
            = (fun i => ((fun m => Add m 1) <$> share i) ++ [Done])
                <$> seq 0 n) as ->.
    { apply list_fmap_ext. intros _ i _. simpl.
      by rewrite calls_start, accepted_default. }
    rewrite concat_threads. by rewrite length_seq. }
  symmetry in Hp.
  rewrite <- (HashFacts.run_perm _ _ Hp (counting_call_adds l n)).
  rewrite HashFacts.run_app, HashFacts.run_done, HashFacts.nb_done_adds.
  simpl. f_equal. lia.
Qed.

End CountScenario.

(** C1, amended: for the sequence ACGTACGT with k = 4, canonical mode off
    and the default filter, the COUNT pass leaves the table with the
    counts ACGT:2, CGTA:1, GTAC:1 and TACG:1, for every number of
    threads, every split of the five 4-mers among them and every order in
    which their [add] calls reach a table that never fills up; every
    thread has then called [done]. *)
Theorem count_acgtacgt `{!BloomCounterOps} (n : nat)
    (share : nat → list mer_dna) (schedule : list table_op) :
  interleave (exec_join n share) (windows 4 [A; C; G; T; A; C; G; T]) →
  interleave (exec_join n (fun thid =>
    calls (start (Filter None) COUNT (mer_iterator (share thid) false))))
    schedule →
  Hash.run schedule Hash.empty =
  {| Hash.slots := {[ [A; C; G; T] := 2; [C; G; T; A] := 1;
                      [G; T; A; C] := 1; [T; A; C; G] := 1 ]};
     Hash.nb_done := n |}.
Proof.
  intros Hl Hs. rewrite (count_pass_table n share _ _ Hl Hs).
  vm_compute. reflexivity.
Qed.


(** ** The claims about filters and workers *)

(** C4: the filter list is a conjunction: a key is accepted exactly when
    the test of every link of the list accepts it; the base filter with
    no predecessor accepts every key, and it is the filter of a run that
    is given no Bloom filter. *)
Theorem filter_chain_conjunction `{!BloomCounterOps} :
  (∀ f x, call f x = true ↔ ∀ g, g ∈ chain f → own_test g x = true)
  ∧ (∀ x, call (Filter None) x = true)
  ∧ (∀ args env d, bf_given args = false →
       res (make_filter args env d) = Ok (Filter None)).
Proof.
  split; [|split].
  - intros f x. rewrite call_forallb, forallb_forall.
    by setoid_rewrite list_elem_of_In.
  - apply call_default.
  - intros args env d Hbf. rewrite make_filter_eq. by rewrite Hbf.
Qed.

Lemma accepted_calls_pass `{!BloomCounterOps} f op_ input o :
  o ∈ calls (start f op_ input) →
  o = Done ∨ ∃ m, o = body op_ m ∧ m ∈ input ∧ call f m = true.
Proof.
  rewrite calls_start. intros [Ho|Ho]%elem_of_app.
  - right. unfold accepted in Ho.
    apply list_elem_of_fmap in Ho as (m & -> & Hm).
    apply list_elem_of_In, filter_In in Hm as [Hm Hc].
    exists m. by rewrite list_elem_of_In.
  - left. by apply list_elem_of_singleton in Ho.
Qed.

(** C3: behind a Bloom filter a key passes exactly when its estimate is
    greater than 1 and every earlier link of the list accepts it; a key
    whose estimate is 0 or 1 is the key of no call a worker makes on the
    table, in any mode. *)
Theorem bloom_filter_predicate `{!BloomCounterOps} bc prev :
  (∀ m, call (filter_bf bc prev) m = true ↔
        1 < check bc m ∧
        ∀ g, prev = Some g → ∀ h, h ∈ chain g → own_test h m = true)
  ∧ (∀ m op_ input o,
       check bc m ≤ 1 →
       o ∈ calls (start (filter_bf bc prev) op_ input) → op_key o ≠ Some m).
Proof.
  assert (∀ m, call (filter_bf bc prev) m = true → 1 < check bc m) as Hest.
  { intros m. rewrite call_unfold. simpl.
    intros [Hc _]%andb_true_iff. by apply N.ltb_lt. }
  split.
  - intros m. rewrite call_unfold. simpl. rewrite andb_true_iff, N.ltb_lt.
    destruct prev as [g|].
    + rewrite call_forallb, forallb_forall.
      setoid_rewrite list_elem_of_In. split.
      * intros [? Hall]. split; [done|]. intros g' [= <-]. done.
      * intros [? Hall]. split; [done|]. by apply Hall.
    + split; [|intros [? _]; done]. intros [? _]. split; [done|]. done.
  - intros m op_ input o Hle [->|(m' & -> & _ & Hc)]%accepted_calls_pass.
    + done.
    + apply Hest in Hc. intros E.
      assert (m' = m) as -> by (destruct op_; simpl in E; congruence).
      lia.
Qed.

(** C9: in each of the three modes a worker calls [done] exactly once:
    [start] returns with one call of [done] made, and in no state the
    worker goes through has [done] been called more than once or while a
    key is left in its iterator.  So it is for every thread of a pass. *)
Theorem done_once_when_exhausted `{!BloomCounterOps} filter_ op_ input :
  let w := start filter_ op_ input in
  (reaches filter_ op_ (enter input) w ∧ step filter_ op_ w = None
   ∧ done_calls (calls w) = 1%nat ∧ last (calls w) = Some Done)
  ∧ (∀ w', reaches filter_ op_ (enter input) w' →
       (done_calls (calls w') ≤ 1)%nat ∧ (Done ∈ calls w' → mers w' = []))
  ∧ (∀ args env files pipes,
       Forall (fun cs => done_calls cs = 1%nat ∧ last cs = Some Done)
         (pass_threads args env files pipes op_ filter_)).
Proof.
  assert (∀ i, done_calls (calls (start filter_ op_ i)) = 1%nat
               ∧ last (calls (start filter_ op_ i)) = Some Done) as Hstart.
  { intros i. rewrite calls_start, done_calls_app, done_calls_accepted.
    split; [done|]. by rewrite last_snoc. }
  split; [|split].
  - split; [apply reaches_steps, reaches_refl|].
    split; [by destruct (start_eq filter_ op_ input) as [c ->]|].
    apply Hstart.
  - intros w' Hw'%reaches_inv. unfold worker_inv in Hw'.
    destruct (at_ w'); [| |].
    + split; [lia|]. by intros ?%done_calls_zero.
    + destruct Hw' as [-> Hz]. split; [lia|done].
    + destruct Hw' as [-> Ho]. split; [lia|done].
  - intros args env files pipes. unfold pass_threads, exec_join.
    apply Forall_fmap, Forall_true. intros thid. apply Hstart.
Qed.

(** ** Loading a Bloom filter *)


(** ** Reading the log of a run *)

Create Rewrite HintDb log.

Section Projections.

Lemma passes_app l l' : passes (l ++ l') = passes l ++ passes l'.
Proof. apply omap_app. Qed.
Lemma dumps_app l l' : dumps (l ++ l') = dumps l ++ dumps l'.
Proof. apply omap_app. Qed.
Lemma merges_app l l' : merges (l ++ l') = merges l ++ merges l'.
Proof. apply omap_app. Qed.
Lemma unlinks_app l l' : unlinks (l ++ l') = unlinks l ++ unlinks l'.
Proof. apply omap_app. Qed.

Lemma passes_cons e l :
  passes (e :: l) =
  match e with ExecJoin op ths => [(op, ths)] | _ => [] end ++ passes l.
Proof. by destruct e. Qed.
Lemma dumps_cons e l :
  dumps (e :: l) = match e with TableDump d => [d] | _ => [] end ++ dumps l.
Proof. by destruct e. Qed.
Lemma merges_cons e l :
  merges (e :: l) =
  match e with
  | MergeFiles fs out mn mx => [(fs, out, mn, mx)]
  | _ => []
  end ++ merges l.
Proof. by destruct e. Qed.
Lemma unlinks_cons e l :
  unlinks (e :: l) = match e with Unlink f => [f] | _ => [] end ++ unlinks l.
Proof. by destruct e. Qed.

Lemma passes_spill d n : passes (spill_dumps d n) = [].
Proof. unfold spill_dumps. induction (seq 0 n); [done|]. by simpl. Qed.
Lemma merges_spill d n : merges (spill_dumps d n) = [].
Proof. unfold spill_dumps. induction (seq 0 n); [done|]. by simpl. Qed.
Lemma unlinks_spill d n : unlinks (spill_dumps d n) = [].
Proof. unfold spill_dumps. induction (seq 0 n); [done|]. by simpl. Qed.
Lemma dumps_spill d n :
  dumps (spill_dumps d n) =
  (fun i => with_nb_files d (nb_files d + i)) <$> seq 0 n.
Proof.
  unfold spill_dumps. induction (seq 0 n) as [|i l IH]; [done|].
  simpl. f_equal. apply IH.
Qed.

Lemma passes_unlink l : passes (Unlink <$> l) = [].
Proof. induction l; [done|]. by simpl. Qed.
Lemma dumps_unlink l : dumps (Unlink <$> l) = [].
Proof. induction l; [done|]. by simpl. Qed.
Lemma merges_unlink l : merges (Unlink <$> l) = [].
Proof. induction l; [done|]. by simpl. Qed.
Lemma unlinks_unlink l : unlinks (Unlink <$> l) = l.
Proof. induction l as [|f l IH]; [done|]. simpl. f_equal. apply IH. Qed.

Lemma elem_of_unlinks f l : Unlink f ∈ l ↔ f ∈ unlinks l.
Proof.
  unfold unlinks. rewrite list_elem_of_omap. split.
  - intros Hf. by exists (Unlink f).
  - intros (e & He & Hm). destruct e; try done. by injection Hm as ->.
Qed.

Lemma elem_of_merges fs out mn mx l :
  MergeFiles fs out mn mx ∈ l ↔ (fs, out, mn, mx) ∈ merges l.
Proof.
  unfold merges. rewrite list_elem_of_omap. split.
  - intros Hf. by exists (MergeFiles fs out mn mx).
  - intros (e & He & Hm). destruct e; try done. by injection Hm as -> -> -> ->.
Qed.

End Projections.

#[global] Hint Rewrite passes_app dumps_app merges_app unlinks_app
  passes_cons dumps_cons merges_cons unlinks_cons
  passes_spill merges_spill unlinks_spill dumps_spill
  passes_unlink dumps_unlink merges_unlink unlinks_unlink : log.

#[global] Arguments passes : simpl never.
#[global] Arguments dumps : simpl never.
#[global] Arguments merges : simpl never.
#[global] Arguments unlinks : simpl never.

Section RunFacts.
Context `{!BloomCounterOps}.
Variable args : count_main_cmdline.
Variable env : world.

Lemma count_main_cases :
  match loaded_filter args env with
  | Die msg =>
      res (count_main args env) = Die msg
      ∧ log (count_main args env) =
        start_log args ++ prime_log args env (new_dumper args)
        ++ load_log args
  | Ok f =>
      match wait_res args env with
      | Die msg =>
          res (count_main args env) = Die msg
          ∧ log (count_main args env) = counted_log args env f
      | Ok _ =>
          let o := write args env (counted_dumper args env) in
          res (count_main args env) =
            match res o with Ok _ => Ok 0%Z | Die msg => Die msg end
          ∧ log (count_main args env) =
            counted_log args env f ++ log o
            ++ (if is_ok (res o) then timing_log args else [])
      end
  end.
Proof.
  rewrite count_main_eq, counting_eq. unfold counted_log, counted_dumper.
  destruct (loaded_filter args env) as [f|msg]; cbn [res dumper log];
    [|done].
  destruct (wait_res args env) as [[]|msg]; cbn [res dumper log]; [|done].
  cbv zeta. destruct (res (write _ _ _)) as [[]|msg]; cbn [res dumper log is_ok].
  - by rewrite <- !app_assoc.
  - by rewrite app_nil_r.
Qed.

Lemma counted_dumper_eq :
  counted_dumper args env =
  with_nb_files (new_dumper args)
    ((if if_given args then spills env PRIME else 0)
     + spills env (do_op args))%nat.
Proof.
  unfold counted_dumper, after_main, after_prime.
  by destruct (if_given args).
Qed.

Lemma pass_threads_eq files pipes op f :
  pass_threads args env files pipes op f =
  (fun thid =>
     (body op <$> List.filter (call f)
                   (mer_iterator (share env files pipes thid)
                                 (canonical_flag args))) ++ [Done])
  <$> seq 0 (threads_arg args).
Proof.
  unfold pass_threads, exec_join. apply list_fmap_ext. intros _ thid _.
  simpl. by rewrite calls_start.
Qed.

Lemma passes_write d : passes (log (write args env d)) = [].
Proof.
  rewrite write_eq.
  destruct (no_write_flag args); [done|].
  destruct (decide _); [done|].
  destruct (no_merge_flag args); [done|]. cbn [log].
  destruct (merge_error env); [done|].
  destruct (no_unlink_flag args); [done|].
  by autorewrite with log.
Qed.

Lemma passes_counted f :
  passes (counted_log args env f) =
  (if if_given args then
     [(PRIME, pass_threads args env (if_arg args) [] PRIME (Filter None))]
   else [])
  ++ [(do_op args, pass_threads args env (file_arg args)
                     (main_pipes args env) (do_op args) f)].
Proof.
  unfold counted_log, start_log, prime_log, load_log, main_log, wait_log.
  destruct (generator_given args), (if_given args), (bf_given args);
    autorewrite with log; done.
Qed.

Lemma fmap_seq_shift {X} (g : nat → X) a b :
  g <$> seq a b = (fun i => g (a + i)%nat) <$> seq 0 b.
Proof.
  rewrite <- (Nat.add_0_r a) at 1.
  by rewrite <- fmap_add_seq, <- list_fmap_compose.
Qed.

Lemma dumps_counted f :
  dumps (counted_log args env f) =
  with_nb_files (new_dumper args)
    <$> seq 0 (nb_files (counted_dumper args env)).
Proof.
  rewrite counted_dumper_eq.
  unfold counted_log, start_log, prime_log, load_log, main_log, wait_log,
    after_prime.
  cbn [nb_files with_nb_files].
  destruct (generator_given args), (if_given args), (bf_given args);
    autorewrite with log; cbn [app nb_files with_nb_files new_dumper];
    rewrite ?app_nil_r, ?seq_app, ?fmap_app; try done;
    change (dumps []) with (@nil dumper_t); cbn [app];
    f_equal; by rewrite (fmap_seq_shift _ (0 + spills env PRIME)).
Qed.

Lemma merges_counted f : merges (counted_log args env f) = [].
Proof.
  unfold counted_log, start_log, prime_log, load_log, main_log, wait_log.
  destruct (generator_given args), (if_given args), (bf_given args);
    autorewrite with log; done.
Qed.

Lemma unlinks_counted f : unlinks (counted_log args env f) = [].
Proof.
  unfold counted_log, start_log, prime_log, load_log, main_log, wait_log.
  destruct (generator_given args), (if_given args), (bf_given args);
    autorewrite with log; done.
Qed.

Lemma merges_aborted :
  merges (start_log args ++ prime_log args env (new_dumper args)
          ++ load_log args) = [].
Proof.
  unfold start_log, prime_log, load_log.
  destruct (generator_given args), (if_given args), (bf_given args);
    autorewrite with log; done.
Qed.

Lemma unlinks_aborted :
  unlinks (start_log args ++ prime_log args env (new_dumper args)
           ++ load_log args) = [].
Proof.
  unfold start_log, prime_log, load_log.
  destruct (generator_given args), (if_given args), (bf_given args);
    autorewrite with log; done.
Qed.

Lemma merges_timing : merges (timing_log args) = [].
Proof. unfold timing_log. by destruct (timing_given args). Qed.

Lemma unlinks_timing : unlinks (timing_log args) = [].
Proof. unfold timing_log. by destruct (timing_given args). Qed.

Lemma dumps_timing : dumps (timing_log args) = [].
Proof. unfold timing_log. by destruct (timing_given args). Qed.

Lemma dumps_timing_if (b : bool) :
  dumps (if b then timing_log args else []) = [].
Proof. destruct b; [apply dumps_timing | done]. Qed.

Lemma merges_timing_if (b : bool) :
  merges (if b then timing_log args else []) = [].
Proof. destruct b; [apply merges_timing | done]. Qed.

Lemma unlinks_timing_if (b : bool) :
  unlinks (if b then timing_log args else []) = [].
Proof. destruct b; [apply unlinks_timing | done]. Qed.

Lemma res_counting :
  res (counting args env (new_dumper args)) =
  match loaded_filter args env with
  | Ok _ => wait_res args env
  | Die msg => Die msg
  end.
Proof. rewrite counting_eq. by destruct (loaded_filter args env). Qed.

Lemma log_counting :
  log (counting args env (new_dumper args)) =
  match loaded_filter args env with
  | Ok f => counted_log args env f
  | Die _ => start_log args ++ prime_log args env (new_dumper args)
             ++ load_log args
  end.
Proof. rewrite counting_eq. by destruct (loaded_filter args env). Qed.

Lemma dumper_counting :
  is_ok (loaded_filter args env) = true →
  dumper (counting args env (new_dumper args)) = counted_dumper args env.
Proof. rewrite counting_eq. by destruct (loaded_filter args env). Qed.

End RunFacts.

(** ** The claims about the driver *)

(** C5: with an intersection file the run first makes a PRIME pass over
    it, each thread calling [set] for every key of its share that the
    pass's filter accepts, and the main pass that follows calls
    [update_add(key, 1)] for every accepted key; without an intersection
    file the only pass is a COUNT pass calling [add(key, 1)].  The keys
    are those of the iterator, canonical when the canonical flag is set;
    the main pass is missing only when the Bloom filter fails to load. *)
Theorem mode_selection `{!BloomCounterOps} args env :
  let keys files pipes thid :=
    mer_iterator (share env files pipes thid) (canonical_flag args) in
  let main call_of f :=
    (fun thid =>
       (call_of <$> List.filter (call f)
                      (keys (file_arg args) (main_pipes args env) thid))
       ++ [Done]) <$> seq 0 (threads_arg args) in
  (if_given args = true →
   passes (log (count_main args env)) =
   (PRIME,
    (fun thid =>
       (SetKey <$> List.filter (call (Filter None)) (keys (if_arg args) [] thid))
       ++ [Done]) <$> seq 0 (threads_arg args))
   :: match loaded_filter args env with
      | Ok f => [(UPDATE, main (fun m => UpdateAdd m 1) f)]
      | Die _ => []
      end)
  ∧ (if_given args = false →
     passes (log (count_main args env)) =
     match loaded_filter args env with
     | Ok f => [(COUNT, main (fun m => Add m 1) f)]
     | Die _ => []
     end).
Proof.
  cbv zeta.
  assert (passes (log (count_main args env)) =
          (if if_given args then
             [(PRIME, pass_threads args env (if_arg args) [] PRIME (Filter None))]
           else [])
          ++ match loaded_filter args env with
             | Ok f => [(do_op args,
                         pass_threads args env (file_arg args)
                           (main_pipes args env) (do_op args) f)]
             | Die _ => []
             end) as Hp.
  { pose proof (count_main_cases args env) as Hc.
    destruct (loaded_filter args env) as [f|msg].
    - destruct (wait_res args env) as [[]|msg].
      + destruct Hc as [_ ->].
        rewrite !passes_app, passes_counted, passes_write.
        unfold timing_log.
        destruct (is_ok _), (timing_given args); by rewrite ?app_nil_r.
      + destruct Hc as [_ ->]. apply passes_counted.
    - destruct Hc as [_ ->].
      unfold start_log, prime_log, load_log.
      destruct (generator_given args), (if_given args), (bf_given args);
        autorewrite with log; done. }
  rewrite Hp. unfold do_op. split; intros ->; simpl;
    rewrite ?pass_threads_eq;
    destruct (loaded_filter args env); by rewrite ?pass_threads_eq.
Qed.

(** C10: when an intersection file is given, the PRIME pass comes first
    in the run, before any Bloom filter is loaded, and each of its
    threads calls [set] for every key of its share and then [done]: no
    key is filtered out, whether or not a Bloom filter is given, and a
    Bloom filter that is given is loaded only afterwards. *)
Theorem prime_pass_unfiltered `{!BloomCounterOps} args env :
  if_given args = true →
  ∃ post,
    log (count_main args env) =
    start_log args
    ++ ExecJoin PRIME
         ((fun thid =>
             (SetKey <$> mer_iterator (share env (if_arg args) [] thid)
                           (canonical_flag args)) ++ [Done])
          <$> seq 0 (threads_arg args))
       :: post
    ∧ Forall (fun e => is_load e = false) (start_log args)
    ∧ (bf_given args = true → LoadBloom (bf_arg args) ∈ post).
Proof.
  intros Hif.
  assert (∃ rest, log (count_main args env) =
                  start_log args ++ prime_log args env (new_dumper args)
                  ++ load_log args ++ rest) as [rest ->].
  { pose proof (count_main_cases args env) as Hc.
    destruct (loaded_filter args env) as [f|msg].
    - destruct (wait_res args env) as [[]|msg]; destruct Hc as [_ ->];
        unfold counted_log; rewrite <- ?app_assoc; eauto.
    - destruct Hc as [_ ->]. exists []. by rewrite app_nil_r. }
  unfold prime_log. rewrite Hif.
  assert (pass_threads args env (if_arg args) [] PRIME (Filter None) =
          (fun thid =>
             (SetKey <$> mer_iterator (share env (if_arg args) [] thid)
                           (canonical_flag args)) ++ [Done])
          <$> seq 0 (threads_arg args)) as ->.
  { rewrite pass_threads_eq. apply list_fmap_ext. intros _ thid _.
    cbv beta. f_equal. apply (accepted_default PRIME). }
  exists (spill_dumps (new_dumper args) (spills env PRIME)
          ++ load_log args ++ rest).
  split; [|split].
  - done.
  - unfold start_log. destruct (generator_given args); by repeat constructor.
  - intros Hbf. unfold load_log. rewrite Hbf.
    apply elem_of_app. right. apply list_elem_of_here.
Qed.

(** C6, amended: when counting has come to its end and writing is not
    disabled, every dump made while counting ran with [one_file] unset
    and no bound; if no such dump was made, exactly one dump follows,
    with [one_file] set and with the lower and upper bounds that are
    given, and no merge; if some were made, one more dump without bounds
    follows and, unless merging is disabled, one merge of all the dump
    files into the output with bounds [min, max], min defaulting to 0 and
    max to 2^64-1; with merging disabled there is no merge. *)
Theorem final_dump_and_merge `{!BloomCounterOps} args env :
  let o := counting args env (new_dumper args) in
  let n := nb_files (dumper o) in
  let spill i := {| text_ := text_flag args; one_file_ := false;
                    min_ := None; max_ := None; nb_files := i |} in
  res o = Ok tt → no_write_flag args = false →
  dumps (log o) = spill <$> seq 0 n
  ∧ (n = 0%nat →
     dumps (log (count_main args env)) =
     [{| text_ := text_flag args; one_file_ := true;
         min_ := if lower_count_given args then Some (lower_count_arg args)
                 else None;
         max_ := if upper_count_given args then Some (upper_count_arg args)
                 else None;
         nb_files := 0 |}]
     ∧ merges (log (count_main args env)) = [])
  ∧ (n ≠ 0%nat →
     dumps (log (count_main args env)) = spill <$> seq 0 (S n)
     ∧ merges (log (count_main args env)) =
       if no_merge_flag args then []
       else [(seq 0 (S n), output_arg args,
              if lower_count_given args then lower_count_arg args else 0,
              if upper_count_given args then upper_count_arg args
              else 2 ^ 64 - 1)]).
Proof.
  cbv zeta. rewrite res_counting, log_counting. intros Hres Hw.
  pose proof (count_main_cases args env) as Hc.
  pose proof (dumper_counting args env) as Hd.
  destruct (loaded_filter args env) as [f|msg]; [|done].
  rewrite Hd by done. clear Hd. rewrite Hres in Hc. cbv zeta in Hc.
  destruct Hc as [_ ->].
  rewrite !dumps_app, !merges_app, dumps_counted, merges_counted,
    dumps_timing_if, merges_timing_if, !app_nil_r.
  rewrite write_eq, Hw.
  assert (counted_dumper args env =
          with_nb_files (new_dumper args) (nb_files (counted_dumper args env)))
    as Hcd by (by rewrite counted_dumper_eq).
  revert Hcd. generalize (nb_files (counted_dumper args env)). intros n Hcd.
  split; [done|]. split; intros Hn.
  - rewrite decide_True by done. cbn [log]. rewrite Hcd, Hn.
    autorewrite with log. done.
  - rewrite decide_False by done.
    destruct (no_merge_flag args); cbn [log]; autorewrite with log.
    + rewrite seq_S, fmap_app, Hcd. done.
    + destruct (merge_error env), (no_unlink_flag args);
        autorewrite with log; rewrite seq_S, fmap_app, Hcd; done.
Qed.

Section Failures.
Context `{!BloomCounterOps}.
Variable args : count_main_cmdline.
Variable env : world.

(** How a run that reaches the writing step ends, and what it logs
    there. *)
Lemma merges_write d :
  merges (log (write args env d)) = [] ∧ unlinks (log (write args env d)) = []
  ∧ res (write args env d) = Ok tt
  ∨ ∃ fs out mn mx,
      log (write args env d) =
      TableDump d :: MergeFiles fs out mn mx
      :: match merge_error env with
         | Some _ => []
         | None => if no_unlink_flag args then [] else Unlink <$> fs
         end
      ∧ res (write args env d) =
        match merge_error env with
        | Some what => Die what
        | None => Ok tt
        end.
Proof.
  rewrite write_eq.
  destruct (no_write_flag args); [by left|].
  destruct (decide _); [by left|].
  destruct (no_merge_flag args); [by left|].
  right. by repeat eexists.
Qed.

(** The three ways a run ends. *)
Lemma count_main_ends :
  (∃ msg pre, res (count_main args env) = Die msg
              ∧ log (count_main args env) = pre
              ∧ merges pre = [] ∧ unlinks pre = []
              ∧ (generator_given args && negb (wait env) = true →
                 is_ok (loaded_filter args env) = true →
                 msg = "Some generator commands failed"
                 ∧ last pre = Some GeneratorWait))
  ∨ (∃ pre post, res (count_main args env) = Ok 0%Z
                 ∧ generator_given args && negb (wait env) = false
                 ∧ log (count_main args env) = pre ++ post
                 ∧ merges (pre ++ post) = [] ∧ unlinks (pre ++ post) = [])
  ∨ (∃ pre fs out mn mx,
       generator_given args && negb (wait env) = false
       ∧ merges pre = [] ∧ unlinks pre = []
       ∧ match merge_error env with
         | Some what =>
             res (count_main args env) = Die what
             ∧ log (count_main args env) = pre ++ [MergeFiles fs out mn mx]
         | None =>
             res (count_main args env) = Ok 0%Z
             ∧ log (count_main args env) =
               pre ++ MergeFiles fs out mn mx
               :: (if no_unlink_flag args then [] else Unlink <$> fs)
               ++ timing_log args
         end).
Proof.
  pose proof (count_main_cases args env) as Hc.
  destruct (loaded_filter args env) as [f|msg].
  2:{ left. destruct Hc as [Hr Hl]. exists msg. eexists.
      split; [done|]. split; [done|].
      split; [apply merges_aborted|]. split; [apply unlinks_aborted|done]. }
  unfold wait_res in Hc.
  destruct (generator_given args && negb (wait env)) eqn:Hg.
  { left. destruct Hc as [Hr Hl]. eexists. eexists.
    split; [done|]. split; [done|].
    split; [apply merges_counted|]. split; [apply unlinks_counted|].
    intros _ _. split; [done|].
    unfold counted_log, wait_log.
    apply andb_true_iff in Hg as [-> _].
    by rewrite !app_assoc, last_snoc. }
  cbv zeta in Hc. destruct Hc as [Hr Hl].
  destruct (merges_write (counted_dumper args env))
    as [(Hm & Hu & Hw)|(fs & out & mn & mx & Hw & Hres)].
  - right; left. rewrite Hw in Hr, Hl. cbn [is_ok] in Hl.
    exists (counted_log args env f).
    eexists. split; [done|]. split; [done|]. split; [done|].
    rewrite !merges_app, !unlinks_app, merges_counted, unlinks_counted,
      Hm, Hu, merges_timing, unlinks_timing. done.
  - right; right. rewrite Hres in Hr, Hl. rewrite Hw in Hl.
    exists (counted_log args env f ++ [TableDump (counted_dumper args env)]),
      fs, out, mn, mx.
    split; [done|].
    rewrite merges_app, unlinks_app, merges_counted, unlinks_counted.
    split; [done|]. split; [done|].
    destruct (merge_error env) as [what|]; cbn [is_ok] in Hl.
    + split; [done|]. rewrite Hl. by rewrite app_nil_r, <- !app_assoc.
    + split; [done|]. rewrite Hl. by rewrite <- !app_assoc.
Qed.

End Failures.

Lemma aborted_counting `{!BloomCounterOps} args env msg :
  res (counting args env (new_dumper args)) = Die msg →
  res (count_main args env) = Die msg
  ∧ log (count_main args env) = log (counting args env (new_dumper args)).
Proof. rewrite count_main_eq. cbv zeta. by intros ->. Qed.

(** C7: when some generator command fails the run aborts with a
    diagnostic, having logged nothing beyond the counting step: no final
    dump, no merge, no unlink; when [merge_files] throws the run aborts
    with the error's message and the merge is the last thing it did; and
    a run that returns, returns 0, with the generators (if any) having
    succeeded and the merge (if any) not having thrown. *)
Theorem fatal_failures `{!BloomCounterOps} args env :
  (generator_given args = true → wait env = false →
   (∃ msg, res (count_main args env) = Die msg)
   ∧ log (count_main args env) = log (counting args env (new_dumper args))
   ∧ merges (log (count_main args env)) = []
   ∧ unlinks (log (count_main args env)) = []
   ∧ (is_ok (loaded_filter args env) = true →
      res (count_main args env) = Die "Some generator commands failed"
      ∧ last (log (count_main args env)) = Some GeneratorWait))
  ∧ (∀ what fs out mn mx,
       merge_error env = Some what →
       MergeFiles fs out mn mx ∈ log (count_main args env) →
       res (count_main args env) = Die what
       ∧ last (log (count_main args env)) = Some (MergeFiles fs out mn mx))
  ∧ (∀ z, res (count_main args env) = Ok z →
       z = 0%Z
       ∧ (generator_given args = true → wait env = true)
       ∧ (∀ fs out mn mx,
            MergeFiles fs out mn mx ∈ log (count_main args env) →
            merge_error env = None)).
Proof.
  pose proof (count_main_ends args env) as Hends.
  split; [|split].
  - intros Hg Hw.
    assert (∃ msg, res (counting args env (new_dumper args)) = Die msg)
      as [msg Hc].
    { rewrite res_counting. unfold wait_res. rewrite Hg, Hw.
      destruct (loaded_filter args env); eauto. }
    destruct (aborted_counting args env msg Hc) as [Hr Hl].
    destruct Hends as [(msg' & pre & Hr' & Hl' & Hm & Hu & Hgen)
                      |[(pre & post & _ & Hno & _)
                       |(pre & fs & out & mn & mx & Hno & _)]];
      [|by rewrite Hg, Hw in Hno..].
    split; [eauto|]. split; [done|]. rewrite Hl'.
    split; [done|]. split; [done|]. intros Hok.
    destruct Hgen as [-> Hlast]; [by rewrite Hg, Hw|done|]. done.
  - intros what fs out mn mx Hme Hin%elem_of_merges.
    destruct Hends as [(msg' & pre & _ & Hl' & Hm & _)
                      |[(pre & post & _ & _ & Hl' & Hm & _)
                       |(pre & fs' & out' & mn' & mx' & _ & Hm & _ & Hcase)]].
    + rewrite Hl', Hm in Hin. by apply elem_of_nil in Hin.
    + rewrite Hl', Hm in Hin. by apply elem_of_nil in Hin.
    + rewrite Hme in Hcase. destruct Hcase as [Hr Hl].
      rewrite Hl, merges_app, Hm in Hin.
      apply list_elem_of_singleton in Hin. injection Hin as -> -> -> ->.
      split; [done|]. by rewrite Hl, last_snoc.
  - intros z Hz.
    destruct Hends as [(msg' & pre & Hr & _)
                      |[(pre & post & Hr & Hno & Hl' & Hm & _)
                       |(pre & fs' & out' & mn' & mx' & Hno & Hm & _ & Hcase)]].
    + congruence.
    + split; [congruence|]. split.
      * intros Hg. rewrite Hg in Hno. by destruct (wait env).
      * intros fs out mn mx Hin%elem_of_merges.
        rewrite Hl', Hm in Hin. by apply elem_of_nil in Hin.
    + destruct (merge_error env) as [what|]; destruct Hcase as [Hr Hl];
        [congruence|].
      split; [congruence|]. split; [|done].
      intros Hg. rewrite Hg in Hno. by destruct (wait env).
Qed.

(** C8: a dump file is unlinked only in a run whose merge did not throw
    and which was not told to keep the files, and then after the merge
    and as one of the merged files; when the merge throws, or when the
    files are to be kept, nothing is unlinked; and after a merge that
    succeeds, unless the files are to be kept, exactly the merged files
    are unlinked. *)
Theorem unlink_only_after_merge `{!BloomCounterOps} args env :
  (∀ f, Unlink f ∈ log (count_main args env) →
     merge_error env = None ∧ no_unlink_flag args = false
     ∧ ∃ pre fs out mn mx post,
         log (count_main args env) = pre ++ MergeFiles fs out mn mx :: post
         ∧ unlinks pre = [] ∧ f ∈ fs)
  ∧ (∀ what, merge_error env = Some what →
       unlinks (log (count_main args env)) = [])
  ∧ (no_unlink_flag args = true → unlinks (log (count_main args env)) = [])
  ∧ (∀ fs out mn mx,
       MergeFiles fs out mn mx ∈ log (count_main args env) →
       merge_error env = None → no_unlink_flag args = false →
       unlinks (log (count_main args env)) = fs).
Proof.
  pose proof (unlinks_timing args) as Ht.
  assert (∀ l, merges l = [] → unlinks l = [] →
    (∀ f, Unlink f ∈ l →
       merge_error env = None ∧ no_unlink_flag args = false
       ∧ ∃ pre fs out mn mx post,
           l = pre ++ MergeFiles fs out mn mx :: post
           ∧ unlinks pre = [] ∧ f ∈ fs)
    ∧ (∀ what, merge_error env = Some what → unlinks l = [])
    ∧ (no_unlink_flag args = true → unlinks l = [])
    ∧ (∀ fs out mn mx,
         MergeFiles fs out mn mx ∈ l →
         merge_error env = None → no_unlink_flag args = false →
         unlinks l = fs)) as Hquiet.
  { intros l Hm Hu. split; [|split; [done|split; [done|]]].
    - intros f Hf%elem_of_unlinks. rewrite Hu in Hf.
      by apply elem_of_nil in Hf.
    - intros fs out mn mx Hf%elem_of_merges. rewrite Hm in Hf.
      by apply elem_of_nil in Hf. }
  destruct (count_main_ends args env)
    as [(msg' & pre & _ & Hl & Hm & Hu & _)
       |[(pre & post & _ & _ & Hl & Hm & Hu)
        |(pre & fs & out & mn & mx & _ & Hm & Hu & Hcase)]].
  - rewrite Hl. by apply Hquiet.
  - rewrite Hl. by apply Hquiet.
  - destruct (merge_error env) as [what|]; destruct Hcase as [_ Hl]; rewrite Hl.
    + assert (unlinks (pre ++ [MergeFiles fs out mn mx]) = []) as Hnone
        by (by rewrite unlinks_app, Hu).
      split; [|split; [done|split; [done|done]]].
      intros f Hf%elem_of_unlinks. rewrite Hnone in Hf.
      by apply elem_of_nil in Hf.
    + assert (unlinks (pre ++ MergeFiles fs out mn mx
                       :: (if no_unlink_flag args then [] else Unlink <$> fs)
                       ++ timing_log args)
              = if no_unlink_flag args then [] else fs) as Hall.
      { rewrite unlinks_app, Hu, unlinks_cons, unlinks_app, Ht.
        destruct (no_unlink_flag args); autorewrite with log;
          by rewrite ?app_nil_r. }
      split; [|split; [done|split]].
      * intros f Hf%elem_of_unlinks. rewrite Hall in Hf.
        destruct (no_unlink_flag args); [by apply elem_of_nil in Hf|].
        split; [done|]. split; [done|]. by repeat eexists.
      * intros Hk. by rewrite Hall, Hk.
      * intros fs' out' mn' mx' Hf%elem_of_merges _ Hk.
        rewrite Hall, Hk.
        rewrite merges_app, Hm, merges_cons, merges_app, (merges_timing args)
          in Hf.
        rewrite Hk in Hf. autorewrite with log in Hf.
        apply list_elem_of_singleton in Hf. by injection Hf as -> _ _ _.
Qed.

(** * Further properties of the code *)

(** ** Filters *)

(** X1: only the Bloom links of a filter list decide: a key is accepted
    exactly when the estimate of every Bloom counter in the list is
    greater than 1; base filters never reject, wherever they stand. *)
Theorem only_counters_decide `{!BloomCounterOps} f x :
  call f x = forallb (fun bc => 1 <? check bc x) (counters f).
Proof.
  induction f as [p IH|c p IH] using filter_prev_ind;
    rewrite call_unfold; simpl; destruct p as [g|]; simpl;
    rewrite ?(IH g eq_refl), ?andb_true_r; done.
Qed.

(** X2: a filter never accepts a key that a filter further back in its
    list rejects: acceptance by a list is acceptance by each of its
    tails. *)
Theorem accepted_by_every_tail `{!BloomCounterOps} f x g :
  call f x = true → g ∈ chain f → call g x = true.
Proof.
  assert (∀ p : option filter,
            (∀ h, p = Some h → call h x = true → g ∈ chain h → call g x = true) →
            match p with Some h => call h x | None => true end = true →
            g ∈ match p with Some h => chain h | None => [] end →
            call g x = true) as Htail.
  { intros [h|] IH Hc Hg; [by apply (IH h)|by apply elem_of_nil in Hg]. }
  induction f as [p IH|c p IH] using filter_prev_ind;
    rewrite chain_unfold; intros Hc [->|Hg]%elem_of_cons; try done;
    rewrite call_unfold in Hc; apply andb_true_iff in Hc as [_ Hc];
    by apply (Htail p).
Qed.

(** ** The worker *)

(** X3: in every mode the keys of the table calls a worker makes are the
    keys of its input that the filter accepts, in the order of the input
    and as many times as they occur; the increments are all 1. *)
Theorem worker_keys_in_input_order `{!BloomCounterOps} filter_ op_ input :
  omap op_key (calls (start filter_ op_ input))
  = List.filter (call filter_) input
  ∧ ∀ m d, (Add m d ∈ calls (start filter_ op_ input)
            ∨ UpdateAdd m d ∈ calls (start filter_ op_ input)) → d = 1.
Proof.
  rewrite calls_start. unfold accepted. split.
  - rewrite omap_app. simpl. rewrite app_nil_r.
    generalize (List.filter (call filter_) input). intros l.
    induction l as [|m l IH]; [done|].
    rewrite fmap_cons. change (omap op_key (?o :: ?k))
      with (match op_key o with Some y => y :: omap op_key k
                           | None => omap op_key k end).
    rewrite IH. by destruct op_.
  - intros m d H0.
    assert (∀ o, o ∈ (body op_ <$> List.filter (call filter_) input) ++ [Done]
                 → o = Done ∨ ∃ k, o = body op_ k) as Hshape.
    { intros o [(k & -> & _)%list_elem_of_fmap|Hs%list_elem_of_singleton]%elem_of_app;
        eauto. }
    destruct H0 as [[[=]|[k Hk]]%Hshape|[[=]|[k Hk]]%Hshape];
      destruct op_; simpl in Hk; congruence.
Qed.

(** X4: a worker makes no call but [done] exactly when the filter rejects
    every key of its input, an empty input included. *)
Theorem worker_only_done `{!BloomCounterOps} filter_ op_ input :
  calls (start filter_ op_ input) = [Done]
  ↔ Forall (fun m => call filter_ m = false) input.
Proof.
  rewrite calls_start. unfold accepted. split.
  - intros E.
    assert (List.filter (call filter_) input = []) as Hnil.
    { destruct (List.filter (call filter_) input); [done|].
      simpl in E. injection E as _ E. by apply app_nil in E as [_ [=]]. }
    apply Forall_forall. intros m Hm%list_elem_of_In.
    destruct (call filter_ m) eqn:Hc; [|done].
    assert (In m (List.filter (call filter_) input)) as Hin
      by (by apply filter_In).
    rewrite Hnil in Hin. done.
  - intros Hall.
    assert (List.filter (call filter_) input = []) as ->; [|done].
    induction Hall as [|m l Hm _ IH]; [done|]. simpl. by rewrite Hm.
Qed.

(** ** Loading a Bloom filter *)

(** X5: the diagnostic names the first check that fails, in the order
    stream state, format tag, key length (against 2*k as the code
    computes it, in unsigned 32-bit arithmetic), length of the counter
    array: a later defect is reported only when the earlier checks
    pass. *)
Theorem load_diagnostic_is_first_failure `{!BloomCounterOps} k path f :
  (load_bloom_filter k path f
   = Die ("Failed to parse bloom filter file '" +:+ path +:+ "'")
   ↔ good (in_ f) = false)
  ∧ (load_bloom_filter k path f
     = Die ("Invalid format '" +:+ format (header f)
            +:+ "'. Expected 'bloomcounter'")
     ↔ good (in_ f) = true ∧ format (header f) ≠ "bloomcounter")
  ∧ (load_bloom_filter k path f = Die "Invalid mer length in bloom filter"
     ↔ good (in_ f) = true ∧ format (header f) = "bloomcounter"
       ∧ key_len (header f) ≠ uint (k * 2))
  ∧ (load_bloom_filter k path f = Die "Bloom filter file is truncated"
     ↔ good (in_ f) = true ∧ format (header f) = "bloomcounter"
       ∧ key_len (header f) = uint (k * 2)
       ∧ N.of_nat (length (unread (in_ f))) < counter_bytes (size (header f))).
Proof.
  unfold load_bloom_filter, bloom_counter_read, read.
  destruct (good (in_ f)) eqn:Hg;
    [destruct (String.eqb_spec (format (header f)) "bloomcounter") as [Hf|Hf];
     [destruct (N.eqb_spec (key_len (header f)) (uint (k * 2))) as [Hk|Hk];
      [destruct (N.leb_spec (counter_bytes (size (header f)))
                   (N.of_nat (length (unread (in_ f))))) as [Hb|Hb]|]|]|];
    simpl; (split; [|split; [|split]]);
    (split;
     [intros E; try discriminate E; repeat split; (done || lia)
     |intros E; try reflexivity; exfalso; decompose [and] E;
      (congruence || lia)]).
Qed.

(** X6: bytes after the counter array are ignored: a file that loads
    still loads, to the same filter, when more bytes follow. *)
Theorem load_ignores_trailing_bytes `{!BloomCounterOps} k path f extra :
  is_ok (load_bloom_filter k path f) = true →
  load_bloom_filter k path (with_unread f (unread (in_ f) ++ extra))
  = load_bloom_filter k path f.
Proof.
  unfold load_bloom_filter, bloom_counter_read, read, with_unread. simpl.
  destruct (good (in_ f)); simpl; [|done].
  destruct (String.eqb _ _); simpl; [|done].
  destruct (key_len (header f) =? uint (k * 2)); simpl; [|done].
  destruct (N.leb_spec (counter_bytes (size (header f)))
              (N.of_nat (length (unread (in_ f))))) as [Hb|Hb]; simpl; [|done].
  intros _. rewrite length_app.
  destruct (N.leb_spec (counter_bytes (size (header f)))
              (N.of_nat (length (unread (in_ f)) + length extra)))
    as [Hb'|Hb']; [|lia].
  simpl. by rewrite take_app_le by lia.
Qed.

(** X7: a filter file fits one k-mer length only: a file that loads
    with k is refused, for its key length, with every other length k',
    both lengths being below 2^31 so that 2*k does not wrap. *)
Theorem load_fits_one_length `{!BloomCounterOps} k k' path path' f :
  is_ok (load_bloom_filter k path f) = true →
  k < 2 ^ 31 → k' < 2 ^ 31 → k' ≠ k →
  load_bloom_filter k' path' f = Die "Invalid mer length in bloom filter".
Proof.
  assert (∀ x, x < 2 ^ 31 → uint (x * 2) = x * 2) as Hsmall.
  { intros x Hx. unfold uint. apply N.mod_small.
    change (2 ^ 32) with (2 ^ 31 * 2). lia. }
  intros Hok Hk Hk' Hne. revert Hok. unfold load_bloom_filter.
  rewrite (Hsmall k Hk), (Hsmall k' Hk').
  destruct (good (in_ f)); simpl; [|done].
  destruct (String.eqb _ _); simpl; [|done].
  destruct (N.eqb_spec (key_len (header f)) (k * 2)) as [Ek|Ek]; simpl;
    [|done].
  intros _.
  destruct (N.eqb_spec (key_len (header f)) (k' * 2)) as [Ek'|Ek']; simpl;
    [|done].
  exfalso. apply Hne. lia.
Qed.

(** X8: the number of hashes and the two matrices of the header are not
    checked: whether a file loads does not depend on them (nor on the
    path), and the filter returned carries them as they are. *)
Theorem load_takes_hash_parameters_as_given `{!BloomCounterOps}
    k path path' f n m1 m2 :
  is_ok (load_bloom_filter k path (with_hashes f n m1 m2))
  = is_ok (load_bloom_filter k path' f)
  ∧ ∀ bc, load_bloom_filter k path (with_hashes f n m1 m2) = Ok bc →
          bc_nb_hashes bc = n ∧ bc_fns bc = {| fn1 := m1; fn2 := m2 |}.
Proof.
  unfold load_bloom_filter, bloom_counter_read, read, with_hashes. simpl.
  destruct (good (in_ f)); simpl; [|done].
  destruct (String.eqb _ _); simpl; [|done].
  destruct (key_len (header f) =? uint (k * 2)); simpl; [|done].
  destruct (_ <=? _); simpl; [|done].
  split; [done|]. by intros bc [= <-].
Qed.

(** ** The whole run *)

Section WholeRun.
Context `{!BloomCounterOps}.
Variable args : count_main_cmdline.
Variable env : world.

Lemma nb_files_counted : nb_files (counted_dumper args env) = spilled args env.
Proof. by rewrite counted_dumper_eq. Qed.

Lemma dumps_aborted :
  dumps (start_log args ++ prime_log args env (new_dumper args)
         ++ load_log args)
  = with_nb_files (new_dumper args)
      <$> seq 0 (if if_given args then spills env PRIME else 0).
Proof.
  unfold start_log, prime_log, load_log.
  destruct (generator_given args), (if_given args), (bf_given args);
    autorewrite with log; by rewrite ?app_nil_r.
Qed.

Lemma passes_aborted :
  passes (start_log args ++ prime_log args env (new_dumper args)
          ++ load_log args)
  = if if_given args then
      [(PRIME, pass_threads args env (if_arg args) [] PRIME (Filter None))]
    else [].
Proof.
  unfold start_log, prime_log, load_log.
  destruct (generator_given args), (if_given args), (bf_given args);
    autorewrite with log; done.
Qed.

Lemma res_write d :
  res (write args env d) =
  if no_write_flag args then Ok tt
  else if decide (nb_files d = 0%nat) then Ok tt
  else if no_merge_flag args then Ok tt
  else match merge_error env with Some what => Die what | None => Ok tt end.
Proof.
  rewrite write_eq. destruct (no_write_flag args); [done|].
  destruct (decide _); [done|]. by destruct (no_merge_flag args).
Qed.

(** The passes of a run. *)
Lemma passes_count_main :
  passes (log (count_main args env)) =
  (if if_given args then
     [(PRIME, pass_threads args env (if_arg args) [] PRIME (Filter None))]
   else [])
  ++ match loaded_filter args env with
     | Ok f => [(do_op args,
                 pass_threads args env (file_arg args) (main_pipes args env)
                   (do_op args) f)]
     | Die _ => []
     end.
Proof.
  pose proof (count_main_cases args env) as Hc.
  destruct (loaded_filter args env) as [f|msg].
  - destruct (wait_res args env) as [[]|msg].
    + destruct Hc as [_ ->].
      rewrite !passes_app, passes_counted, passes_write.
      unfold timing_log.
      destruct (is_ok _), (timing_given args); by rewrite ?app_nil_r.
    + destruct Hc as [_ ->]. apply passes_counted.
  - destruct Hc as [_ ->]. rewrite passes_aborted. by rewrite app_nil_r.
Qed.

(** The dumps and the merge of a run: the dumps made while counting,
    then no further dump, or the one dump of a run that never spilled, or
    a last dump, with or without the merge. *)
Lemma dumps_count_main :
  ∃ n,
    (dumps (log (count_main args env))
       = with_nb_files (new_dumper args) <$> seq 0 n
     ∧ merges (log (count_main args env)) = [])
    ∨ (dumps (log (count_main args env)) = [one_file_knobs args (new_dumper args)]
       ∧ merges (log (count_main args env)) = [])
    ∨ (n ≠ 0%nat
       ∧ dumps (log (count_main args env))
         = with_nb_files (new_dumper args) <$> seq 0 (S n)
       ∧ merges (log (count_main args env))
         = [(seq 0 (S n), output_arg args, merge_min args, merge_max args)]).
Proof.
  pose proof (count_main_cases args env) as Hc.
  destruct (loaded_filter args env) as [f|msg].
  2:{ destruct Hc as [_ ->]. eexists. left.
      split; [apply dumps_aborted | apply merges_aborted]. }
  destruct (wait_res args env) as [[]|msg].
  2:{ destruct Hc as [_ ->]. eexists. left.
      split; [apply dumps_counted | apply merges_counted]. }
  cbv zeta in Hc. destruct Hc as [_ ->].
  rewrite !dumps_app, !merges_app, dumps_counted, merges_counted,
    dumps_timing_if, merges_timing_if, !app_nil_r.
  assert (counted_dumper args env =
          with_nb_files (new_dumper args) (nb_files (counted_dumper args env)))
    as Hcd by (by rewrite counted_dumper_eq).
  revert Hcd. generalize (nb_files (counted_dumper args env)). intros n Hcd.
  rewrite write_eq.
  destruct (no_write_flag args).
  { exists n. left. by rewrite !app_nil_r. }
  destruct (decide (nb_files (counted_dumper args env) = 0%nat)) as [E0|NE].
  { exists 0%nat. right; left. cbn [log]. autorewrite with log.
    rewrite Hcd in E0 |- *. simpl in E0. subst n. done. }
  assert (n ≠ 0%nat) as Hn by (by rewrite Hcd in NE).
  destruct (no_merge_flag args); cbn [log]; autorewrite with log.
  { exists (S n). left. by rewrite seq_S, fmap_app, Hcd. }
  exists n. right; right. split; [done|].
  rewrite Hcd. cbn [nb_files with_nb_files].
  destruct (merge_error env), (no_unlink_flag args);
    autorewrite with log; by rewrite seq_S, fmap_app.
Qed.

End WholeRun.

(** Which kinds of events each part of a log holds. *)
Section Kinds.
Context `{!BloomCounterOps}.
Variable args : count_main_cmdline.
Variable env : world.
Variable p : event → bool.

Lemma none_of_app l l' : none_of p l → none_of p l' → none_of p (l ++ l').
Proof. apply Forall_app_2. Qed.

Lemma none_of_elem e l : none_of p l → p e = true → e ∉ l.
Proof.
  intros Hl He Hin. unfold none_of in Hl. rewrite Forall_forall in Hl.
  specialize (Hl e Hin). congruence.
Qed.

Lemma none_of_start : p GeneratorStart = false → none_of p (start_log args).
Proof. unfold start_log. destruct (generator_given args); by repeat constructor. Qed.

Lemma none_of_spill d n :
  (∀ k, p (TableDump k) = false) → none_of p (spill_dumps d n).
Proof. intros Hd. apply Forall_fmap, Forall_true. intros i. apply Hd. Qed.

Lemma none_of_prime d :
  (∀ o t, p (ExecJoin o t) = false) → (∀ k, p (TableDump k) = false) →
  none_of p (prime_log args env d).
Proof.
  intros He Hd. unfold prime_log. destruct (if_given args); [|constructor].
  apply Forall_cons_2; [apply He | by apply none_of_spill].
Qed.

Lemma none_of_main d f :
  (∀ o t, p (ExecJoin o t) = false) → (∀ k, p (TableDump k) = false) →
  none_of p (main_log args env d f).
Proof.
  intros He Hd. apply Forall_cons_2; [apply He | by apply none_of_spill].
Qed.

Lemma none_of_load : (∀ s, p (LoadBloom s) = false) → none_of p (load_log args).
Proof.
  intros Hl. unfold load_log. destruct (bf_given args); by repeat constructor.
Qed.

Lemma none_of_wait : p GeneratorWait = false → none_of p (wait_log args).
Proof. unfold wait_log. destruct (generator_given args); by repeat constructor. Qed.

Lemma none_of_timing :
  (∀ s, p (TimingFile s) = false) → none_of p (timing_log args).
Proof.
  intros Ht. unfold timing_log. destruct (timing_given args); by repeat constructor.
Qed.

Lemma none_of_write d :
  (∀ k, p (TableDump k) = false) →
  (∀ fs out mn mx, p (MergeFiles fs out mn mx) = false) →
  (∀ f, p (Unlink f) = false) →
  none_of p (log (write args env d)).
Proof.
  intros Hd Hm Hu. rewrite write_eq.
  destruct (no_write_flag args); [constructor|].
  destruct (decide _); [by repeat constructor|].
  destruct (no_merge_flag args); [by repeat constructor|]. cbn [log].
  apply Forall_cons_2; [apply Hd|]. apply Forall_cons_2; [apply Hm|].
  destruct (merge_error env); [constructor|].
  destruct (no_unlink_flag args); [constructor|].
  apply Forall_fmap, Forall_true. intros f. apply Hu.
Qed.

End Kinds.

(** X9: the run returns 0 in exactly these runs: the Bloom filter, if one
    is given, loads; the generators, if any, succeed; and the merge, if
    one is made (writing and merging enabled, at least one dump made
    while counting), does not throw.  Every other run aborts. *)
Theorem count_main_returns_iff `{!BloomCounterOps} args env :
  (res (count_main args env) = Ok 0%Z ↔
     is_ok (loaded_filter args env) = true
     ∧ (generator_given args = true → wait env = true)
     ∧ (no_write_flag args = false → spilled args env ≠ 0%nat →
        no_merge_flag args = false → merge_error env = None))
  ∧ (res (count_main args env) = Ok 0%Z
     ∨ ∃ msg, res (count_main args env) = Die msg).
Proof.
  assert (res (count_main args env) =
          match loaded_filter args env with
          | Die msg => Die msg
          | Ok _ =>
              match wait_res args env with
              | Die msg => Die msg
              | Ok _ =>
                  match res (write args env (counted_dumper args env)) with
                  | Ok _ => Ok 0%Z
                  | Die msg => Die msg
                  end
              end
          end) as ->.
  { pose proof (count_main_cases args env) as Hc.
    destruct (loaded_filter args env); [|by destruct Hc].
    destruct (wait_res args env); by destruct Hc. }
  unfold wait_res. rewrite res_write, nb_files_counted.
  destruct (loaded_filter args env) as [f|msg], (generator_given args),
    (wait env), (no_write_flag args), (decide (spilled args env = 0%nat)),
    (no_merge_flag args), (merge_error env) as [what|]; simpl;
    (split;
     [split;
      [intros E; try discriminate E; repeat split;
       first [done | intros; congruence]
      |intros (H1 & H2 & H3);
       first [reflexivity
             |exfalso;
              first [discriminate H1
                    |by specialize (H2 eq_refl)
                    |by specialize (H3 eq_refl ltac:(assumption) eq_refl)]]]
     |first [by left | right; eauto]]).
Qed.

(** X10: when the Bloom filter fails to load, the run aborts with the
    loader's diagnostic right after trying to load it: the PRIME pass, if
    any, has run, the main pass has not, nothing is written, and the
    generators, though started, are not waited for. *)
Theorem bloom_failure_stops_the_run `{!BloomCounterOps} args env msg :
  loaded_filter args env = Die msg →
  res (count_main args env) = Die msg
  ∧ last (log (count_main args env)) = Some (LoadBloom (bf_arg args))
  ∧ passes (log (count_main args env))
    = (if if_given args then
         [(PRIME, pass_threads args env (if_arg args) [] PRIME (Filter None))]
       else [])
  ∧ length (dumps (log (count_main args env)))
    = (if if_given args then spills env PRIME else 0%nat)
  ∧ merges (log (count_main args env)) = []
  ∧ unlinks (log (count_main args env)) = []
  ∧ (GeneratorWait ∉ log (count_main args env))
  ∧ (generator_given args = true →
     head (log (count_main args env)) = Some GeneratorStart).
Proof.
  intros Hl. pose proof (count_main_cases args env) as Hc.
  rewrite Hl in Hc. destruct Hc as [-> ->].
  rewrite passes_aborted, dumps_aborted, merges_aborted, unlinks_aborted,
    length_fmap, length_seq.
  assert (load_log args = [LoadBloom (bf_arg args)]) as Hload.
  { unfold loaded_filter in Hl. unfold load_log.
    by destruct (bf_given args). }
  repeat split; try done.
  - by rewrite Hload, !app_assoc, last_snoc.
  - apply (none_of_elem is_wait); [|done].
    apply none_of_app; [by apply none_of_start|].
    apply none_of_app; [by apply none_of_prime|]. by apply none_of_load.
  - intros Hg. unfold start_log. by rewrite Hg.
Qed.

(** X11: with writing disabled the run makes no final dump, no merge and
    no unlink: its log is that of the counting step, followed by the
    timing file if one is asked for and counting did not abort, and its
    dumper is left as counting left it. *)
Theorem no_write_writes_nothing `{!BloomCounterOps} args env :
  no_write_flag args = true →
  let o := counting args env (new_dumper args) in
  log (count_main args env)
  = log o ++ (if is_ok (res o) then timing_log args else [])
  ∧ dumper (count_main args env) = dumper o
  ∧ is_ok (res (count_main args env)) = is_ok (res o)
  ∧ merges (log (count_main args env)) = []
  ∧ unlinks (log (count_main args env)) = []
  ∧ Forall (fun d => one_file_ d = false ∧ has_bound d = false)
      (dumps (log (count_main args env))).
Proof.
  intros Hnw. cbv zeta.
  assert (∀ d, write args env d = {| res := Ok tt; dumper := d; log := [] |})
    as Hw by (intros d; by rewrite write_eq, Hnw).
  assert (log (count_main args env)
          = log (counting args env (new_dumper args))
            ++ (if is_ok (res (counting args env (new_dumper args)))
                then timing_log args else [])
          ∧ dumper (count_main args env)
            = dumper (counting args env (new_dumper args))
          ∧ is_ok (res (count_main args env))
            = is_ok (res (counting args env (new_dumper args))))
    as (Hlog & Hd & Hr).
  { rewrite count_main_eq. cbv zeta.
    destruct (res (counting args env (new_dumper args))) as [[]|msg];
      rewrite ?Hw; cbn [res dumper log is_ok app]; by rewrite ?app_nil_r. }
  split; [done|]. split; [done|]. split; [done|]. rewrite Hlog.
  rewrite merges_app, unlinks_app, dumps_app, merges_timing_if,
    unlinks_timing_if, dumps_timing_if, !app_nil_r, log_counting.
  assert (∀ n, Forall (fun d => one_file_ d = false ∧ has_bound d = false)
                 (with_nb_files (new_dumper args) <$> seq 0 n)) as Hsp.
  { intros n. apply Forall_fmap, Forall_true. done. }
  destruct (loaded_filter args env) as [f|msg].
  - rewrite merges_counted, unlinks_counted, dumps_counted. auto.
  - rewrite merges_aborted, unlinks_aborted, dumps_aborted. auto.
Qed.

(** X12: the statement that writes the timing file (lines 284-289) is
    executed in exactly the runs that return and were asked for one, with
    the path given, and it is the last thing the run does; a run that
    aborts never reaches it.  The event says that the write is tried: the
    code does not test the stream it opens. *)
Theorem timing_file_only_on_return `{!BloomCounterOps} args env path :
  (TimingFile path ∈ log (count_main args env) ↔
     timing_given args = true ∧ path = timing_arg args
     ∧ res (count_main args env) = Ok 0%Z)
  ∧ (TimingFile path ∈ log (count_main args env) →
     last (log (count_main args env)) = Some (TimingFile path)).
Proof.
  assert (none_of is_timing (start_log args
            ++ prime_log args env (new_dumper args) ++ load_log args)) as Hab.
  { apply none_of_app; [by apply none_of_start|].
    apply none_of_app; [by apply none_of_prime|]. by apply none_of_load. }
  assert (∀ f, none_of is_timing (counted_log args env f)) as Hco.
  { intros f. unfold counted_log.
    apply none_of_app; [by apply none_of_start|].
    apply none_of_app; [by apply none_of_prime|].
    apply none_of_app; [by apply none_of_load|].
    apply none_of_app; [by apply none_of_main|]. by apply none_of_wait. }
  pose proof (none_of_write args env is_timing (counted_dumper args env)
                (fun _ => eq_refl) (fun _ _ _ _ => eq_refl) (fun _ => eq_refl))
    as Hwr.
  assert (∀ l, none_of is_timing l → TimingFile path ∉ l) as Hno
    by (intros l Hl; by apply (none_of_elem is_timing)).
  pose proof (count_main_cases args env) as Hc.
  destruct (loaded_filter args env) as [f|msg].
  2:{ destruct Hc as [-> ->]. split; [split|]; intros H0; try done.
      - by apply Hno in H0.
      - by destruct H0 as (_ & _ & ?).
      - by apply Hno in H0. }
  destruct (wait_res args env) as [[]|msg].
  2:{ destruct Hc as [-> ->]. split; [split|]; intros H0; try done.
      - by apply Hno in H0.
      - by destruct H0 as (_ & _ & ?).
      - by apply Hno in H0. }
  cbv zeta in Hc. destruct Hc as [-> ->].
  assert (TimingFile path ∈ counted_log args env f
            ++ log (write args env (counted_dumper args env))
            ++ (if is_ok (res (write args env (counted_dumper args env)))
                then timing_log args else [])
          ↔ TimingFile path ∈
              (if is_ok (res (write args env (counted_dumper args env)))
               then timing_log args else [])) as Hin.
  { rewrite !elem_of_app. split; [|by auto].
    intros [H0|[H0|H0]]; [by apply Hno in H0|by apply Hno in H0|done]. }
  rewrite Hin. unfold timing_log.
  destruct (res (write args env (counted_dumper args env))) as [[]|msg];
    cbn [is_ok]; destruct (timing_given args); rewrite ?app_nil_r.
  - rewrite list_elem_of_singleton. split.
    + split; [by intros [= ->] | by intros (_ & -> & _)].
    + intros [= ->]. by rewrite !app_assoc, last_snoc.
  - split; [split|]; intros H0; try (by apply elem_of_nil in H0).
    by destruct H0 as (? & _).
  - split; [split|]; intros H0; try (by apply elem_of_nil in H0).
    by destruct H0 as (_ & _ & ?).
  - split; [split|]; intros H0; try (by apply elem_of_nil in H0).
    by destruct H0 as (? & _).
Qed.

(** X13: the count bounds are applied at most once in a run: either one
    dump runs with a bound, or there is a merge (which takes the bounds),
    never both and never twice. *)
Theorem bounds_applied_at_most_once `{!BloomCounterOps} args env :
  (length (List.filter has_bound (dumps (log (count_main args env))))
   + length (merges (log (count_main args env))) ≤ 1)%nat.
Proof.
  assert (∀ n, List.filter has_bound
                 (with_nb_files (new_dumper args) <$> seq 0 n) = []) as Hsp.
  { intros n. induction (seq 0 n) as [|i l IH]; [done|]. by simpl. }
  destruct (dumps_count_main args env)
    as [n [[-> ->]|[[-> ->]|(_ & -> & ->)]]]; rewrite ?Hsp; simpl; try lia.
  destruct (has_bound _); simpl; lia.
Qed.

(** X14: every pass of a run, whatever its mode, has one worker per
    configured thread, and its workers call [done] as many times as there
    are threads. *)
Theorem every_pass_has_all_threads `{!BloomCounterOps} args env op ths :
  (op, ths) ∈ passes (log (count_main args env)) →
  length ths = threads_arg args
  ∧ sum_list (done_calls <$> ths) = threads_arg args.
Proof.
  assert (∀ files pipes o f,
            length (pass_threads args env files pipes o f) = threads_arg args
            ∧ sum_list (done_calls <$> pass_threads args env files pipes o f)
              = threads_arg args) as Hpass.
  { intros files pipes o f. rewrite pass_threads_eq.
    rewrite length_fmap, length_seq. split; [done|].
    rewrite <- list_fmap_compose.
    assert (∀ l : list nat,
              sum_list
                ((done_calls
                  ∘ (fun thid =>
                       (body o <$> List.filter (call f)
                          (mer_iterator (share env files pipes thid)
                             (canonical_flag args))) ++ [Done])) <$> l)
              = length l) as Hsum.
    { induction l as [|i l IH]; [done|].
      rewrite fmap_cons. simpl. rewrite IH. f_equal.
      rewrite done_calls_app.
      pose proof (done_calls_accepted f o
                    (mer_iterator (share env files pipes i)
                       (canonical_flag args))) as Hz.
      unfold accepted in Hz. by rewrite Hz. }
    by rewrite Hsum, length_seq. }
  rewrite passes_count_main.
  intros [Hin|Hin]%elem_of_app.
  - destruct (if_given args); [|by apply elem_of_nil in Hin].
    apply list_elem_of_singleton in Hin. injection Hin as -> ->. apply Hpass.
  - destruct (loaded_filter args env); [|by apply elem_of_nil in Hin].
    apply list_elem_of_singleton in Hin. injection Hin as -> ->. apply Hpass.
Qed.

(** X15: the promise made with [one_file(true)] is kept: a dump that runs
    with [one_file] set is the only dump of its run, and that run makes
    no merge. *)
Theorem one_file_promise_kept `{!BloomCounterOps} args env d :
  d ∈ dumps (log (count_main args env)) → one_file_ d = true →
  dumps (log (count_main args env)) = [d]
  ∧ merges (log (count_main args env)) = [].
Proof.
  assert (∀ n, d ∈ with_nb_files (new_dumper args) <$> seq 0 n →
               one_file_ d = true → False) as Hsp.
  { intros n (i & -> & _)%list_elem_of_fmap. done. }
  destruct (dumps_count_main args env)
    as [n [[-> ->]|[[-> ->]|(_ & -> & _)]]]; intros Hin Ho.
  - by destruct (Hsp _ Hin Ho).
  - by apply list_elem_of_singleton in Hin as ->.
  - by destruct (Hsp _ Hin Ho).
Qed.

(** X16: a run merges at most once, and a merge takes all the files the
    run has dumped, the last dump included: at least two files, into the
    output path. *)
Theorem merge_takes_all_dump_files `{!BloomCounterOps} args env :
  (length (merges (log (count_main args env))) ≤ 1)%nat
  ∧ ∀ fs out mn mx,
      MergeFiles fs out mn mx ∈ log (count_main args env) →
      fs = nb_files <$> dumps (log (count_main args env))
      ∧ (2 ≤ length fs)%nat ∧ out = output_arg args.
Proof.
  assert (∀ n, nb_files <$> (with_nb_files (new_dumper args) <$> seq 0 n)
               = seq 0 n) as Hsp.
  { intros n. rewrite <- list_fmap_compose. apply list_fmap_id. }
  destruct (dumps_count_main args env)
    as [n [[Hd Hm]|[[Hd Hm]|(Hn & Hd & Hm)]]]; rewrite Hm.
  - split; [simpl; lia|].
    intros fs out mn mx Hin%elem_of_merges. rewrite Hm in Hin.
    by apply elem_of_nil in Hin.
  - split; [simpl; lia|].
    intros fs out mn mx Hin%elem_of_merges. rewrite Hm in Hin.
    by apply elem_of_nil in Hin.
  - split; [simpl; lia|].
    intros fs out mn mx Hin%elem_of_merges. rewrite Hm in Hin.
    apply list_elem_of_singleton in Hin. injection Hin as -> -> -> ->.
    rewrite Hd, Hsp. split; [done|]. split; [|done].
    cbn [length]. rewrite length_seq. lia.
Qed.

(** A run's log, around the wait for the generators. *)
Lemma run_split `{!BloomCounterOps} args env :
  ∃ mid post,
    log (count_main args env)
    = start_log args ++ mid
      ++ (if is_ok (loaded_filter args env) then wait_log args else [])
      ++ post
    ∧ none_of is_start mid ∧ none_of is_wait mid
    ∧ none_of is_start post ∧ none_of is_wait post
    ∧ passes post = [] ∧ merges mid = [] ∧ unlinks mid = []
    ∧ (is_ok (loaded_filter args env) = true →
       length (dumps mid) = spilled args env).
Proof.
  set (nd := new_dumper args).
  assert (∀ p, (∀ o t, p (ExecJoin o t) = false) →
               (∀ k, p (TableDump k) = false) →
               (∀ s, p (LoadBloom s) = false) →
               none_of p (prime_log args env nd ++ load_log args)) as Hab.
  { intros p H1 H2 H3. apply none_of_app; [by apply none_of_prime|].
    by apply none_of_load. }
  assert (∀ p f, (∀ o t, p (ExecJoin o t) = false) →
                 (∀ k, p (TableDump k) = false) →
                 (∀ s, p (LoadBloom s) = false) →
                 none_of p (prime_log args env nd ++ load_log args
                            ++ main_log args env (after_prime args env nd) f))
    as Hmid.
  { intros p f H1 H2 H3. apply none_of_app; [by apply none_of_prime|].
    apply none_of_app; [by apply none_of_load | by apply none_of_main]. }
  assert (∀ f,
            merges (prime_log args env nd ++ load_log args
                    ++ main_log args env (after_prime args env nd) f) = []
            ∧ unlinks (prime_log args env nd ++ load_log args
                       ++ main_log args env (after_prime args env nd) f) = []
            ∧ length (dumps (prime_log args env nd ++ load_log args
                       ++ main_log args env (after_prime args env nd) f))
              = spilled args env) as Hproj.
  { intros f. unfold prime_log, load_log, main_log, after_prime, spilled.
    destruct (if_given args), (bf_given args); autorewrite with log;
      change (dumps []) with (@nil dumper_t);
      change (merges []) with (@nil (list nat * string * N * N));
      change (unlinks []) with (@nil nat);
      cbn [app]; rewrite ?length_app, ?length_fmap, ?length_seq;
      repeat split; try done; simpl; lia. }
  pose proof (count_main_cases args env) as Hc. fold nd in Hc.
  destruct (loaded_filter args env) as [f|msg]; cbn [is_ok].
  2:{ destruct Hc as [_ ->].
      exists (prime_log args env nd ++ load_log args), [].
      rewrite !app_nil_r. split; [done|].
      split; [by apply Hab|]. split; [by apply Hab|].
      split; [constructor|]. split; [constructor|]. split; [done|].
      unfold prime_log, load_log.
      destruct (if_given args), (bf_given args); autorewrite with log; done. }
  destruct (Hproj f) as (Hm & Hu & Hd).
  exists (prime_log args env nd ++ load_log args
          ++ main_log args env (after_prime args env nd) f).
  destruct (wait_res args env) as [[]|msg].
  - cbv zeta in Hc. destruct Hc as [_ ->]. eexists.
    unfold counted_log. fold nd. rewrite <- !app_assoc.
    split; [reflexivity|].
    split; [by apply Hmid|]. split; [by apply Hmid|].
    assert (∀ p, (∀ k, p (TableDump k) = false) →
                 (∀ fs out mn mx, p (MergeFiles fs out mn mx) = false) →
                 (∀ x, p (Unlink x) = false) →
                 (∀ s, p (TimingFile s) = false) →
                 none_of p
                   (log (write args env (counted_dumper args env))
                    ++ (if is_ok (res (write args env (counted_dumper args env)))
                        then timing_log args else []))) as Htail.
    { intros p H1 H2 H3 H4. apply none_of_app; [by apply none_of_write|].
      destruct (is_ok _); [by apply none_of_timing | constructor]. }
    split; [by apply Htail|]. split; [by apply Htail|].
    split; [|done].
    rewrite passes_app, passes_write. unfold timing_log.
    by destruct (is_ok _), (timing_given args).
  - destruct Hc as [_ ->]. exists [].
    unfold counted_log. fold nd. rewrite app_nil_r, <- !app_assoc.
    split; [done|].
    split; [by apply Hmid|]. split; [by apply Hmid|].
    split; [constructor|]. split; [constructor|]. done.
Qed.

(** X17: the generators bracket the counting: they are started, first of
    all, exactly when generators are given, and waited for exactly when
    in addition the run gets past the loading of the Bloom filter; the
    wait comes once, after every pass and every dump made while counting,
    and before any merge or unlink. *)
Theorem generators_bracket_counting `{!BloomCounterOps} args env :
  (GeneratorStart ∈ log (count_main args env) ↔ generator_given args = true)
  ∧ (generator_given args = true →
     head (log (count_main args env)) = Some GeneratorStart)
  ∧ (GeneratorWait ∈ log (count_main args env) ↔
     generator_given args = true ∧ is_ok (loaded_filter args env) = true)
  ∧ (GeneratorWait ∈ log (count_main args env) →
     ∃ pre post,
       log (count_main args env) = pre ++ GeneratorWait :: post
       ∧ passes pre = passes (log (count_main args env))
       ∧ length (dumps pre) = spilled args env
       ∧ merges pre = [] ∧ unlinks pre = []
       ∧ none_of is_wait pre ∧ none_of is_wait post).
Proof.
  destruct (run_split args env)
    as (mid & post & -> & Hsm & Hwm & Hsp & Hwp & Hpp & Hm & Hu & Hd).
  assert (∀ e, is_start e = true ∨ is_wait e = true → e ∉ mid ++ post)
    as Hnot.
  { intros e [He|He] [Hin|Hin]%elem_of_app.
    - by apply (none_of_elem is_start e mid).
    - by apply (none_of_elem is_start e post).
    - by apply (none_of_elem is_wait e mid).
    - by apply (none_of_elem is_wait e post). }
  pose proof (Hnot GeneratorStart (or_introl eq_refl)) as Hns.
  pose proof (Hnot GeneratorWait (or_intror eq_refl)) as Hnw.
  unfold start_log, wait_log.
  destruct (generator_given args), (is_ok (loaded_filter args env));
    cbn [app]; rewrite ?app_nil_r.
  - split; [split; [done | intros _; apply list_elem_of_here]|].
    split; [done|]. split.
    { split; [done|]. intros _. apply elem_of_cons. right.
      apply elem_of_app. right. apply list_elem_of_here. }
    intros _. exists (GeneratorStart :: mid), post.
    split; [done|].
    split.
    { rewrite !passes_cons, !passes_app, passes_cons, Hpp. simpl.
      by rewrite !app_nil_r. }
    rewrite dumps_cons, merges_cons, unlinks_cons. simpl.
    split; [by apply Hd|]. split; [done|]. split; [done|].
    split; [by apply Forall_cons_2|done].
  - split; [split; [done | intros _; apply list_elem_of_here]|].
    split; [done|].
    assert (GeneratorWait ∉ GeneratorStart :: mid ++ post) as Hw
      by (by intros [[=]|Hin]%elem_of_cons).
    split; [split; [done | by intros [_ [=]]] | done].
  - split; [split; [done | done]|]. split; [done|].
    split; [split; [done | by intros [[=] _]] | done].
  - split; [split; [done | done]|]. split; [done|].
    split; [split; [done | by intros [[=] _]] | done].
Qed.

(** ** Passes over the table *)

Section PassesOverTable.
Context `{!BloomCounterOps}.
Import Hash.

Lemma slots_adds (l : list mer_dna) : ∀ h m,
  slots (run ((fun k => Add k 1) <$> l) h) !! m =
  match occurrences m l with
  | O => slots h !! m
  | S c => Some (default 0 (slots h !! m) + N.of_nat (S c))
  end.
Proof.
  unfold run, occurrences.
  induction l as [|k l IH]; intros h m; [done|].
  rewrite fmap_cons. cbn [foldl List.filter]. rewrite IH. cbn [apply add slots].
  case_bool_decide as Hk; cbn [length].
  - subst k. rewrite lookup_insert_eq. cbn [default].
    destruct (length _); apply (f_equal Some); unfold id; lia.
  - rewrite lookup_insert_ne by done. done.
Qed.

(** The calls of the threads of a pass, in any order of arrival, are the
    calls of the accepted keys and one [done] per thread. *)
Lemma schedule_of_pass filter_ op_ n (input : nat → list mer_dna) schedule :
  interleave (exec_join n (fun thid => calls (start filter_ op_ (input thid))))
    schedule →
  schedule ≡ₚ
  (body op_ <$> concat (exec_join n (fun thid =>
                          List.filter (call filter_) (input thid))))
  ++ replicate n Done.
Proof.
  intros Hs%interleave_perm. rewrite <- Hs. unfold exec_join.
  assert ((fun thid => calls (start filter_ op_ (input thid))) <$> seq 0 n
          = (fun i => (body op_ <$> List.filter (call filter_) (input i))
                      ++ [Done]) <$> seq 0 n) as ->.
  { apply list_fmap_ext. intros _ i _. simpl. by rewrite calls_start. }
  rewrite concat_threads. by rewrite length_seq.
Qed.

Lemma nb_done_run ops : ∀ h,
  nb_done (run ops h) = (done_calls ops + nb_done h)%nat.
Proof.
  unfold run, done_calls.
  induction ops as [|o ops IH]; intros h; [done|].
  cbn [foldl List.filter]. rewrite IH.
  destruct o as [k d|k|k d|]; cbn [apply bool_decide decide_rel];
    unfold Hash.set, update_add; try destruct (slots h !! k);
    simpl; lia.
Qed.

Lemma done_calls_pass op_ (l : list mer_dna) n :
  done_calls ((body op_ <$> l) ++ replicate n Done) = n.
Proof.
  rewrite done_calls_app.
  assert (done_calls (body op_ <$> l) = 0%nat) as ->.
  { apply done_calls_zero. intros (k & E & _)%list_elem_of_fmap.
    by destruct op_. }
  simpl. unfold done_calls. induction n as [|n IH]; [done|].
  simpl. by rewrite IH.
Qed.

Lemma done_calls_perm l l' : l ≡ₚ l' → done_calls l = done_calls l'.
Proof.
  unfold done_calls. induction 1; simpl; try done.
  - destruct (bool_decide _); simpl; congruence.
  - by destruct (bool_decide _), (bool_decide _).
  - congruence.
Qed.

End PassesOverTable.

(** A COUNT pass over the table without bound on its counts. *)
Lemma count_pass_ideal `{!BloomCounterOps} filter_ n
    (input : nat → list mer_dna) schedule :
  interleave (exec_join n (fun thid => calls (start filter_ COUNT (input thid))))
    schedule →
  let keys := concat (exec_join n (fun thid =>
                        List.filter (call filter_) (input thid))) in
  Hash.nb_done (Hash.run schedule Hash.empty) = n
  ∧ ∀ m, Hash.slots (Hash.run schedule Hash.empty) !! m =
         if decide (occurrences m keys = 0%nat) then None
         else Some (N.of_nat (occurrences m keys)).
Proof.
  intros Hp%schedule_of_pass keys. fold keys in Hp. split.
  - rewrite nb_done_run, (done_calls_perm _ _ Hp), done_calls_pass.
    simpl. lia.
  - intros m. symmetry in Hp.
    rewrite <- (HashFacts.run_perm _ _ Hp (counting_call_adds keys n)).
    rewrite HashFacts.run_app, HashFacts.run_done. cbn [Hash.slots].
    rewrite slots_adds. simpl.
    destruct (occurrences m keys); [done|].
    rewrite decide_False by done. f_equal.
Qed.

Module CappedFacts.
Import Capped.

Lemma capped_eq h h' :
  slots h = slots h' → nb_done h = nb_done h' → h = h'.
Proof. destruct h, h'; simpl. by intros -> ->. Qed.

Lemma squash_zero cap : squash cap 0 = (0, false).
Proof.
  unfold squash. f_equal; [lia|]. by destruct (N.ltb_spec cap 0); [lia|].
Qed.

Lemma squash_add cap c delta :
  (N.min cap (N.min cap c + delta),
   (cap <? c) || (cap <? N.min cap c + delta))
  = squash cap (c + delta).
Proof.
  unfold squash. f_equal; [lia|].
  destruct (N.ltb_spec cap c), (N.ltb_spec cap (N.min cap c + delta)),
    (N.ltb_spec cap (c + delta)); simpl; try done; lia.
Qed.

Lemma add_view cap k d h :
  add cap k d (view cap h) = view cap (Hash.add k d h).
Proof.
  unfold add. cbn [view slots nb_done]. rewrite lookup_fmap.
  unfold Hash.add, view. cbn [Hash.slots Hash.nb_done].
  rewrite fmap_insert.
  destruct (Hash.slots h !! k) as [c|];
    cbn [fmap option_fmap option_map default]; unfold id.
  - unfold squash at 1. cbv iota beta. by rewrite squash_add.
  - unfold squash. cbv iota beta. by rewrite ?N.add_0_l.
Qed.

(** The saturating table follows the table without bound, call by call. *)
Lemma apply_view cap o h :
  apply cap o (view cap h) = view cap (Hash.apply o h).
Proof.
  destruct o as [k d|k|k d|]; cbn [apply Hash.apply].
  - apply add_view.
  - unfold set, Hash.set. cbn [view slots]. rewrite lookup_fmap.
    destruct (Hash.slots h !! k) as [c|]; cbn [fmap option_fmap option_map];
      [done|].
    apply capped_eq; [|done]. cbn [view slots Hash.slots nb_done].
    by rewrite fmap_insert, squash_zero.
  - unfold update_add, Hash.update_add.
    replace (slots (view cap h) !! k) with (squash cap <$> Hash.slots h !! k)
      by (cbn [view slots]; by rewrite lookup_fmap).
    destruct (Hash.slots h !! k) as [c|]; cbn [fmap option_fmap option_map];
      [apply add_view | done].
  - done.
Qed.

Lemma run_view cap ops : ∀ h,
  run cap ops (view cap h) = view cap (Hash.run ops h).
Proof.
  unfold run, Hash.run. induction ops as [|o ops IH]; intros h; [done|].
  cbn [foldl]. by rewrite apply_view, IH.
Qed.

End CappedFacts.

(** X18: a COUNT pass counts occurrences up to saturation, whatever the
    filter, the number of threads, the split of the input among them, the
    order in which their calls reach the table and the largest count
    [cap] a slot holds (the table as modelled from the spec, starting
    empty and never full): a key the filter accepted c times is resident
    with count min(cap, c), flagged exactly when c exceeds [cap]; a key
    never accepted is absent; and every thread has called [done]. *)
Theorem count_pass_counts_occurrences `{!BloomCounterOps} cap filter_ n
    (input : nat → list mer_dna) schedule :
  interleave (exec_join n (fun thid => calls (start filter_ COUNT (input thid))))
    schedule →
  let keys := concat (exec_join n (fun thid =>
                        List.filter (call filter_) (input thid))) in
  Capped.nb_done (Capped.run cap schedule Capped.empty) = n
  ∧ ∀ m, Capped.slots (Capped.run cap schedule Capped.empty) !! m =
         if decide (occurrences m keys = 0%nat) then None
         else Some (N.min cap (N.of_nat (occurrences m keys)),
                    cap <? N.of_nat (occurrences m keys)).
Proof.
  intros Hs keys.
  destruct (count_pass_ideal filter_ n input schedule Hs) as [Hdone Hslots].
  fold keys in Hslots.
  assert (Capped.empty = Capped.view cap Hash.empty) as ->.
  { apply CappedFacts.capped_eq; [|done]. simpl. by rewrite fmap_empty. }
  rewrite CappedFacts.run_view. split; [done|].
  intros m. cbn [Capped.view Capped.slots]. rewrite lookup_fmap, Hslots.
  by destruct (decide _).
Qed.

(** X19: an UPDATE pass creates no key: in any order of arrival over any
    table (as modelled from the spec), the resident keys after the pass
    are the resident keys before it, and every thread has called
    [done]. *)
Theorem update_pass_creates_no_key `{!BloomCounterOps} filter_ n
    (input : nat → list mer_dna) schedule h :
  interleave (exec_join n (fun thid => calls (start filter_ UPDATE (input thid))))
    schedule →
  dom (Hash.slots (Hash.run schedule h)) = dom (Hash.slots h)
  ∧ Hash.nb_done (Hash.run schedule h) = (n + Hash.nb_done h)%nat.
Proof.
  intros Hp%schedule_of_pass. split.
  2:{ by rewrite nb_done_run, (done_calls_perm _ _ Hp), done_calls_pass. }
  assert (Forall (fun o => o = Done ∨ ∃ k, o = UpdateAdd k 1) schedule) as Hall.
  { rewrite Hp. apply Forall_app. split.
    - apply Forall_fmap, Forall_true. intros k. right. by exists k.
    - apply Forall_replicate. by left. }
  clear Hp. revert h. unfold Hash.run.
  induction Hall as [|o ops Ho _ IH]; intros h; [done|].
  cbn [foldl]. rewrite IH.
  destruct Ho as [->|[k ->]]; [done|].
  cbn [Hash.apply]. unfold Hash.update_add.
  destruct (Hash.slots h !! k) as [c|] eqn:Hk; [|done].
  cbn [Hash.add Hash.slots]. rewrite dom_insert_L.
  apply subseteq_union_1_L, singleton_subseteq_l, elem_of_dom. eauto.
Qed.

(** X20: a PRIME pass marks the accepted keys present and no other: in
    any order of arrival over any table (as modelled from the spec), the
    resident keys after the pass are those resident before it and the
    keys the filter accepted in some thread's input; every thread has
    called [done]. *)
Theorem prime_pass_marks_accepted_keys `{!BloomCounterOps} filter_ n
    (input : nat → list mer_dna) schedule h :
  interleave (exec_join n (fun thid => calls (start filter_ PRIME (input thid))))
    schedule →
  let keys := concat (exec_join n (fun thid =>
                        List.filter (call filter_) (input thid))) in
  (∀ m, m ∈ dom (Hash.slots (Hash.run schedule h))
        ↔ m ∈ dom (Hash.slots h) ∨ m ∈ keys)
  ∧ Hash.nb_done (Hash.run schedule h) = (n + Hash.nb_done h)%nat.
Proof.
  intros Hp%schedule_of_pass keys. fold keys in Hp. split.
  2:{ by rewrite nb_done_run, (done_calls_perm _ _ Hp), done_calls_pass. }
  intros m.
  assert (Forall (fun o => o = Done ∨ ∃ k, o = SetKey k) schedule) as Hall.
  { rewrite Hp. apply Forall_app. split.
    - apply Forall_fmap, Forall_true. intros k. right. by exists k.
    - apply Forall_replicate. by left. }
  assert (m ∈ keys ↔ SetKey m ∈ schedule) as ->.
  { rewrite Hp, elem_of_app. split.
    - intros Hm. left. apply list_elem_of_fmap. by exists m.
    - intros [(k & [= ->] & Hk)%list_elem_of_fmap
             |[[=] _]%elem_of_replicate]. done. }
  clear Hp. revert h. unfold Hash.run.
  induction Hall as [|o ops Ho _ IH]; intros h.
  - cbn [foldl]. split; [by left|]. intros [Hm|Hm]; [done|].
    by apply elem_of_nil in Hm.
  - cbn [foldl]. rewrite IH, elem_of_cons. destruct Ho as [->|[k ->]].
    + cbn [Hash.apply Hash.done Hash.slots]. split.
      * intros [Hm|Hm]; [by left | by right; right].
      * intros [Hm|[[=]|Hm]]; [by left | by right].
    + cbn [Hash.apply]. unfold Hash.set.
      destruct (Hash.slots h !! k) as [c|] eqn:Hk.
      * split.
        -- intros [Hm|Hm]; [by left | by right; right].
        -- intros [Hm|[[= ->]|Hm]]; [by left | |by right].
           left. apply elem_of_dom. eauto.
      * cbn [Hash.slots]. rewrite dom_insert_L, elem_of_union,
          elem_of_singleton. split.
        -- intros [[->|Hm]|Hm]; [by right; left | by left | by right; right].
        -- intros [Hm|[[= ->]|Hm]];
             [by left; right | by left; left | by right].
Qed.

(** * The properties on sample runs *)

#[local] Existing Instance Sample.byte_counters.

(** Building an interleaving: take the next element of thread [i]. *)
Ltac next_of i := eapply (interleave_cons _ i); [reflexivity|]; simpl.
Ltac all_done := apply interleave_nil; repeat constructor.

(** The two shares of the sample are a split of the five 4-mers. *)
Lemma sample_split :
  interleave (exec_join 2 Sample.split_share)
    (windows 4 [A; C; G; T; A; C; G; T]).
Proof.
  vm_compute.
  next_of 0%nat. next_of 0%nat. next_of 0%nat. next_of 1%nat. next_of 1%nat.
  all_done.
Qed.

(** The sample schedule is an order in which the calls of the two
    threads can arrive. *)
Lemma sample_schedule :
  interleave (exec_join 2 (fun thid =>
    calls (start (Filter None) COUNT
             (mer_iterator (Sample.split_share thid) false))))
    Sample.schedule.
Proof.
  vm_compute.
  next_of 0%nat. next_of 1%nat. next_of 0%nat. next_of 1%nat. next_of 1%nat.
  next_of 0%nat. next_of 0%nat. all_done.
Qed.

(** The scenario with two threads: four keys, ACGT counted twice. *)
Lemma count_acgtacgt_two_threads :
  Hash.run Sample.schedule Hash.empty =
  {| Hash.slots := {[ [A; C; G; T] := 2; [C; G; T; A] := 1;
                      [G; T; A; C] := 1; [T; A; C; G] := 1 ]};
     Hash.nb_done := 2 |}.
Proof.
  apply (count_acgtacgt 2 Sample.split_share Sample.schedule).
  - exact sample_split.
  - exact sample_schedule.
Defined.

(** On the same run the table is not the three-key table: TACG is in it. *)
Lemma count_acgtacgt_fourth_key :
  interleave (exec_join 2 Sample.split_share)
    (windows 4 [A; C; G; T; A; C; G; T])
  ∧ interleave (exec_join 2 (fun thid =>
      calls (start (Filter None) COUNT
               (mer_iterator (Sample.split_share thid) false))))
      Sample.schedule
  ∧ Hash.slots (Hash.run Sample.schedule Hash.empty)
    ≠ {[ [A; C; G; T] := 2; [C; G; T; A] := 1; [G; T; A; C] := 1 ]}.
Proof.
  split; [exact sample_split|]. split; [exact sample_schedule|].
  intros E. apply (f_equal (fun m => m !! [T; A; C; G])) in E.
  vm_compute in E. discriminate.
Qed.



Example load_sample_ok :
  is_ok (load_bloom_filter 4 "reads.bc" Sample.bloom_ok) = true.
Proof. reflexivity. Qed.

(** A run whose table filled up twice: three unbounded dumps, and one
    merge of the three files with bounds [2, 2^64-1]. *)
Lemma final_dump_and_merge_after_two_spills :
  let args := Sample.args false false false false in
  let env := Sample.env 2 None true in
  let spill i := {| text_ := false; one_file_ := false; min_ := None;
                    max_ := None; nb_files := i |} in
  dumps (log (count_main args env)) = [spill 0; spill 1; spill 2]%nat
  ∧ merges (log (count_main args env)) =
    [([0; 1; 2]%nat, "mer_counts.jf", 2, 2 ^ 64 - 1)].
Proof.
  intros args env spill.
  destruct (final_dump_and_merge args env eq_refl eq_refl) as (_ & _ & Hsome).
  apply Hsome. discriminate.
Defined.

(** With merging disabled, a run with one intermediate file makes no
    merge. *)
Lemma merge_disabled_no_merge :
  let args := Sample.args false false false true in
  let env := Sample.env 1 None true in
  res (counting args env (new_dumper args)) = Ok tt
  ∧ no_write_flag args = false
  ∧ nb_files (dumper (counting args env (new_dumper args))) = 1%nat
  ∧ ¬ ∃ fs out mn mx, MergeFiles fs out mn mx ∈ log (count_main args env).
Proof.
  repeat split; [].
  intros (fs & out & mn & mx & Hin%elem_of_merges).
  vm_compute in Hin. by apply elem_of_nil in Hin.
Qed.

(** A run with an intersection file and a Bloom filter: the PRIME pass
    sets all five keys, and the filter is loaded after it. *)
Lemma prime_pass_unfiltered_with_bloom :
  let args := Sample.args false true true false in
  let env := Sample.env 0 None true in
  ∃ post,
    log (count_main args env) =
    ExecJoin PRIME
      [[SetKey [A; C; G; T]; SetKey [C; G; T; A]; SetKey [G; T; A; C]; Done];
       [SetKey [T; A; C; G]; SetKey [A; C; G; T]; Done]]
    :: post
    ∧ LoadBloom "reads.bc" ∈ post.
Proof.
  intros args env.
  destruct (prime_pass_unfiltered args env eq_refl) as (post & Hlog & _ & Hin).
  exists post. split; [exact Hlog | exact (Hin eq_refl)].
Defined.

(** The sample Bloom filter gives the estimates 2, 0, 1 and 3 to the keys
    that end in A, C, G and T: behind it the main pass keeps ACGT and
    CGTA and drops GTAC and TACG. *)
Example update_pass_behind_bloom :
  passes (log (count_main (Sample.args false true true false)
                 (Sample.env 0 None true)))
  = [(PRIME,
      [[SetKey [A; C; G; T]; SetKey [C; G; T; A]; SetKey [G; T; A; C]; Done];
       [SetKey [T; A; C; G]; SetKey [A; C; G; T]; Done]]);
     (UPDATE,
      [[UpdateAdd [A; C; G; T] 1; UpdateAdd [C; G; T; A] 1; Done];
       [UpdateAdd [A; C; G; T] 1; Done]])].
Proof. vm_compute. reflexivity. Qed.

(** When the merge throws, the run aborts with its message and unlinks
    nothing. *)
Example merge_error_keeps_files :
  let r := count_main (Sample.args false false false false)
             (Sample.env 1 (Some "input files disagree") true) in
  res r = Die "input files disagree" ∧ unlinks (log r) = []
  ∧ merges (log r) = [([0; 1]%nat, "mer_counts.jf", 2, 2 ^ 64 - 1)].
Proof. vm_compute. repeat split. Qed.

(** When a generator fails, the run stops at the wait: the one dump in
    the log is the one made while counting. *)
Example generator_failure_stops_the_run :
  let r := count_main (Sample.args true false false false)
             (Sample.env 1 None false) in
  res r = Die "Some generator commands failed"
  ∧ last (log r) = Some GeneratorWait
  ∧ length (dumps (log r)) = 1%nat ∧ merges (log r) = [].
Proof. vm_compute. repeat split. Qed.

Example merged_files_are_unlinked :
  let r := count_main (Sample.args false false false false)
             (Sample.env 1 None true) in
  res r = Ok 0%Z ∧ unlinks (log r) = [0; 1]%nat.
Proof. vm_compute. repeat split. Qed.

Example worker_calls_done_last :
  calls (start (Filter None) PRIME [[A; C; G; T]; [C; G; T; A]])
  = [SetKey [A; C; G; T]; SetKey [C; G; T; A]; Done].
Proof. reflexivity. Qed.

Example canonical_keys :
  mer_iterator (windows 4 Sample.acgtacgt) true
  = [[A; C; G; T]; [C; G; T; A]; [G; T; A; C]; [C; G; T; A]; [A; C; G; T]].
Proof. reflexivity. Qed.

(** ** The further properties on sample runs *)

(** ACGT, accepted behind two Bloom counters, is accepted behind the
    second alone. *)
Lemma accepted_by_every_tail_two_counters :
  call (filter_bf Cases.counter' None) [A; C; G; T] = true.
Proof.
  apply (accepted_by_every_tail
           (filter_bf Cases.counter (Some (filter_bf Cases.counter' None)))
           [A; C; G; T]).
  - reflexivity.
  - simpl. apply elem_of_cons. right. apply list_elem_of_here.
Defined.

(** The sample filter file still loads with one more byte at its end. *)
Lemma load_ignores_one_trailing_byte :
  load_bloom_filter 4 "reads.bc"
    (with_unread Sample.bloom_ok
       (unread (in_ Sample.bloom_ok) ++ [Byte.xff]))
  = load_bloom_filter 4 "reads.bc" Sample.bloom_ok.
Proof.
  apply (load_ignores_trailing_bytes 4 "reads.bc" Sample.bloom_ok [Byte.xff]).
  reflexivity.
Defined.

(** The sample filter file, which loads with k = 4, is refused with
    k = 5. *)
Lemma load_fits_one_length_sample :
  load_bloom_filter 5 "copy.bc" Sample.bloom_ok
  = Die "Invalid mer length in bloom filter".
Proof.
  apply (load_fits_one_length 4 5 "reads.bc" "copy.bc" Sample.bloom_ok);
    [reflexivity | reflexivity | reflexivity | discriminate].
Defined.

(** A run with generators, an intersection file and a missing Bloom
    filter file: it aborts after the PRIME pass, without waiting for the
    generators. *)
Lemma bloom_failure_after_prime :
  let r := count_main (Sample.args true true true false)
             (Cases.env_unparsed 1) in
  res r = Die "Failed to parse bloom filter file 'reads.bc'"
  ∧ last (log r) = Some (LoadBloom "reads.bc")
  ∧ length (passes (log r)) = 1%nat
  ∧ length (dumps (log r)) = 1%nat
  ∧ (GeneratorWait ∉ log r)
  ∧ head (log r) = Some GeneratorStart.
Proof.
  intros r. subst r.
  destruct (bloom_failure_stops_the_run
              (Sample.args true true true false) (Cases.env_unparsed 1)
              "Failed to parse bloom filter file 'reads.bc'" eq_refl)
    as (Hres & Hlast & Hpasses & Hdumps & _ & _ & Hwait & Hhead).
  split; [exact Hres|]. split; [exact Hlast|].
  split; [by rewrite Hpasses|]. split; [exact Hdumps|].
  split; [exact Hwait | exact (Hhead eq_refl)].
Defined.

(** A run with writing disabled and a timing file: one dump made while
    counting, then the timing file. *)
Lemma no_write_sample :
  let r := count_main (Cases.args true true) (Sample.env 1 None true) in
  last (log r) = Some (TimingFile "timing.txt")
  ∧ length (dumps (log r)) = 1%nat
  ∧ merges (log r) = [] ∧ unlinks (log r) = [].
Proof.
  intros r. subst r.
  destruct (no_write_writes_nothing (Cases.args true true)
              (Sample.env 1 None true) eq_refl)
    as (Hlog & _ & _ & Hm & Hu & _).
  split; [by rewrite Hlog|]. split; [by rewrite Hlog|].
  split; [exact Hm | exact Hu].
Defined.

(** The COUNT pass of the sample run has its two threads. *)
Lemma count_pass_of_two_threads :
  let ths := [[Add [A; C; G; T] 1; Add [C; G; T; A] 1; Add [G; T; A; C] 1; Done];
              [Add [T; A; C; G] 1; Add [A; C; G; T] 1; Done]] in
  length ths = 2%nat ∧ sum_list (done_calls <$> ths) = 2%nat.
Proof.
  intros ths.
  apply (every_pass_has_all_threads (Sample.args false false false false)
           (Sample.env 0 None true) COUNT ths).
  vm_compute. apply list_elem_of_here.
Defined.

(** The one dump of a run that never spilled. *)
Lemma one_file_dump_alone :
  let r := count_main (Sample.args false false false false)
             (Sample.env 0 None true) in
  let d := {| text_ := false; one_file_ := true; min_ := Some 2;
              max_ := None; nb_files := 0 |} in
  dumps (log r) = [d] ∧ merges (log r) = [].
Proof.
  intros r d.
  apply (one_file_promise_kept (Sample.args false false false false)
           (Sample.env 0 None true) d).
  - vm_compute. apply list_elem_of_here.
  - reflexivity.
Defined.

(** In the two-thread scenario with one-bit counters, TACG is counted
    once and ACGT, met twice, stays at 1 with its flag raised. *)
Lemma count_pass_counts_sample :
  let h := Capped.run 1 Sample.schedule Capped.empty in
  Capped.slots h !! [T; A; C; G] = Some (1, false)
  ∧ Capped.slots h !! [A; C; G; T] = Some (1, true)
  ∧ Capped.slots h !! [A; A; A; A] = None.
Proof.
  intros h. subst h.
  destruct (count_pass_counts_occurrences 1 (Filter None) 2
              Sample.split_share Sample.schedule sample_schedule)
    as [_ Hslots].
  split; [exact (Hslots [T; A; C; G])|].
  split; [exact (Hslots [A; C; G; T]) | exact (Hslots [A; A; A; A])].
Defined.

(** The calls of the one thread, in UPDATE and in PRIME mode. *)
Lemma one_thread_update :
  interleave (exec_join 1 (fun thid =>
    calls (start (Filter None) UPDATE (Cases.one_share thid))))
    [UpdateAdd [A; C; G; T] 1; UpdateAdd [C; G; T; A] 1; Done].
Proof. vm_compute. next_of 0%nat. next_of 0%nat. next_of 0%nat. all_done. Qed.

Lemma one_thread_prime :
  interleave (exec_join 1 (fun thid =>
    calls (start (Filter None) PRIME (Cases.one_share thid))))
    [SetKey [A; C; G; T]; SetKey [C; G; T; A]; Done].
Proof. vm_compute. next_of 0%nat. next_of 0%nat. next_of 0%nat. all_done. Qed.

(** An UPDATE pass over a table that holds ACGT only leaves CGTA out. *)
Lemma update_pass_on_primed_table :
  let h := Hash.set [A; C; G; T] Hash.empty in
  dom (Hash.slots (Hash.run
         [UpdateAdd [A; C; G; T] 1; UpdateAdd [C; G; T; A] 1; Done] h))
  = dom (Hash.slots h).
Proof.
  intros h.
  exact (proj1 (update_pass_creates_no_key (Filter None) 1 Cases.one_share
                  _ h one_thread_update)).
Defined.

(** A PRIME pass over the empty table makes ACGT and CGTA resident, and
    not GTAC. *)
Lemma prime_pass_on_empty_table :
  let h := Hash.run [SetKey [A; C; G; T]; SetKey [C; G; T; A]; Done]
             Hash.empty in
  [A; C; G; T] ∈ dom (Hash.slots h)
  ∧ [C; G; T; A] ∈ dom (Hash.slots h)
  ∧ [G; T; A; C] ∉ dom (Hash.slots h).
Proof.
  intros h. subst h.
  destruct (prime_pass_marks_accepted_keys (Filter None) 1 Cases.one_share
              _ Hash.empty one_thread_prime) as [Hdom _].
  split; [|split].
  - apply Hdom. right. apply list_elem_of_here.
  - apply Hdom. right. apply elem_of_cons. right. apply list_elem_of_here.
  - intros [Hin|Hin]%Hdom.
    + by apply elem_of_dom in Hin as [c Hc].
    + vm_compute in Hin.
      apply elem_of_cons in Hin as [[=]|Hin].
      apply elem_of_cons in Hin as [[=]|Hin].
      by apply elem_of_nil in Hin.
Defined.
